(** * AP_Module: external module discovery, hook registry and dispatch

    A shallow embedding of [libraries/AP_Module/AP_Module.cpp] and the
    properties of it that the design document states.

    The file follows the source top to bottom: the string helpers the
    directory filter relies on, single-precision arithmetic for the one
    place where the dispatcher computes with floats, the data handed to
    module entry points, the hook registry, [module_scan], [init] and the
    five [call_hook_*] operations.  Everything the C++ code does to the
    outside (loading a module, printing a diagnostic, reading the
    navigation source, calling into a module) is recorded as an [event],
    so that "which calls were made, in which order, with which data" is a
    plain list one can compute. *)

From Stdlib Require Import ZArith List Bool String Ascii Lia Permutation.
From Stdlib Require Import QArith Qabs Qpower Lqa SpecFloat.
Import ListNotations.

Local Open Scope Z_scope.
Local Open Scope string_scope.

(** ** C string helpers used by [init] *)

Module CString.

(** A C string is modelled by the characters before its terminator. *)
Definition nul : ascii := Ascii.zero.

Fixpoint nul_free (s : string) : bool :=
  match s with
  | EmptyString => true
  | String a rest => negb (Ascii.eqb a nul) && nul_free rest
  end.

Definition code (a : ascii) : Z := Z.of_nat (nat_of_ascii a).

(** [strrchr s c]: the tail of [s] that starts at the last occurrence
    of [c]; [None] stands for the null pointer. *)
Fixpoint strrchr (s : string) (c : ascii) : option string :=
  match s with
  | EmptyString => None
  | String a rest =>
      match strrchr rest c with
      | Some t => Some t
      | None => if Ascii.eqb a c then Some s else None
      end
  end.

(** [strcmp a b]: difference of the first pair of bytes that differ,
    the terminator counting as byte 0. *)
Fixpoint strcmp (a b : string) : Z :=
  match a, b with
  | EmptyString, EmptyString => 0
  | EmptyString, String y _ => 0 - code y
  | String x _, EmptyString => code x - 0
  | String x a', String y b' =>
      if Ascii.eqb x y then strcmp a' b' else code x - code y
  end.

(** The words of the design document: "name ends with the exact
    loadable-module suffix (case-sensitive)". *)
Fixpoint ends_with (suffix s : string) : bool :=
  if String.eqb s suffix then true
  else match s with
       | EmptyString => false
       | String _ rest => ends_with suffix rest
       end.

End CString.

(** ** Single-precision floats

    [float] in the source is IEEE-754 binary32.  The standard library's
    [SpecFloat] gives its arithmetic for any precision; here precision is
    24 bits and the largest exponent 128. *)

Definition float : Type := spec_float.

Module Float32.

Definition prec : Z := 24.
Definition emax : Z := 128.

Definition zero : float := S754_zero false.

(** Conversion of a C integer to [float] (round to nearest even). *)
Definition of_int (z : Z) : float := binary_normalize prec emax z 0 false.

Definition mul (x y : float) : float := SFmul prec emax x y.
Definition div (x y : float) : float := SFdiv prec emax x y.

(** The literal [0.01f]: the binary32 number nearest to 1/100, which is
    10737418 * 2^-30. *)
Definition lit_0_01f : float := S754_finite false 10737418 (-30).

Definition eq_dec (x y : float) : {x = y} + {x <> y}.
Proof.
  decide equality;
    try apply Bool.bool_dec; try apply Z.eq_dec; apply Pos.eq_dec.
Defined.

(** What [shr] keeps of a number [X] after [k] shifts: the quotient, the
    bit below it and whether anything lower is set. *)
Definition shifted (X k : Z) (mrs : shr_record) : Prop :=
  0 <= shr_m mrs /\
  exists rho, X = shr_m mrs * 2 ^ k + rho /\ 0 <= rho < 2 ^ k /\
    (shr_r mrs = true <-> 2 ^ k <= 2 * rho) /\
    (shr_s mrs = true <-> (2 * rho <> 0 /\ 2 * rho <> 2 ^ k)).

(** [m * 2^e] as a rational number. *)
Definition val (m e : Z) : Q := (inject_Z m * (2 # 1) ^ e)%Q.

(** The rational number a finite float stands for. *)
Definition to_Q (x : float) : option Q :=
  match x with
  | S754_zero _ => Some (0 # 1)%Q
  | S754_finite s m e => Some (val (if s then Zneg m else Zpos m) e)
  | _ => None
  end.

End Float32.

(** ** Vectors, matrices and locations of the host (AP_Math, AP_Common)

    Only the members [AP_Module.cpp] touches are modelled. *)

(** Modelled from the spec: [Vector3f], [Matrix3f] and [Quaternion] of
    AP_Math, whose headers are not among the sources; a vector has three
    float components and a quaternion four, read with [operator[]]. *)
Record Vector3f := { vx : float; vy : float; vz : float }.

(** [Vector3f::operator[]]. *)
Definition Vector3f_at (v : Vector3f) (i : nat) : float :=
  match i with
  | O => vx v
  | S O => vy v
  | _ => vz v
  end.

Record Matrix3f := { row_a : Vector3f; row_b : Vector3f; row_c : Vector3f }.

Record Quaternion := { q1 : float; q2 : float; q3 : float; q4 : float }.

(** [Quaternion::operator[]]. *)
Definition Quaternion_at (q : Quaternion) (i : nat) : float :=
  match i with
  | O => q1 q
  | S O => q2 q
  | S (S O) => q3 q
  | _ => q4 q
  end.

(** Modelled from the spec: [struct Location] of AP_Common, not among
    the sources; the altitude is an integer number of centimetres,
    latitude and longitude are integers too. *)
Record Location := { alt : Z; lat : Z; lng : Z }.

(** C arrays of floats inside the snapshots: a list, read and written by
    index.  Every index in the source is a literal inside the bounds. *)
Definition array_get (a : list float) (i : nat) : float := nth i a Float32.zero.

Fixpoint array_set (a : list float) (i : nat) (v : float) : list float :=
  match a, i with
  | [], _ => []
  | _ :: t, O => v :: t
  | h :: t, S j => h :: array_set t j v
  end.

Definition zeros (n : nat) : list float := repeat Float32.zero n.

(** ** Snapshots handed to module entry points (AP_Module_Structures.h) *)

(** Modelled from the spec: the structures of AP_Module_Structures.h,
    which is not among the sources.  The members are those the code
    assigns, with the shapes section 3 of the design document gives:
    integer version, timestamp, instance, latitude and longitude, float
    altitude, float arrays for quaternion, eulers and vectors. *)
Inductive AHRS_status :=
| AHRS_STATUS_INITIALISING
| AHRS_STATUS_UNHEALTHY
| AHRS_STATUS_HEALTHY.

Record origin_t := {
  origin_initialised : bool;
  origin_latitude : Z;
  origin_longitude : Z;
  origin_altitude : float
}.

Record position_t := {
  position_available : bool;
  position_latitude : Z;
  position_longitude : Z;
  position_altitude : float
}.

Record AHRS_state := {
  structure_version : Z;
  time_us : Z;
  status : AHRS_status;
  quat : list float;
  eulers : list float;
  origin : origin_t;
  position : position_t;
  relative_position : list float;
  gyro_rate : list float;
  accel_ef : list float
}.

Record gyro_sample := {
  gyro_structure_version : Z;
  gyro_time_us : Z;
  gyro_instance : Z;
  gyro_delta_time : float;
  gyro : list float
}.

Record accel_sample := {
  accel_structure_version : Z;
  accel_time_us : Z;
  accel_instance : Z;
  accel_delta_time : float;
  accel : list float
}.

(** [struct T state {}]: every member zero. *)
Definition origin_zero : origin_t :=
  {| origin_initialised := false; origin_latitude := 0;
     origin_longitude := 0; origin_altitude := Float32.zero |}.

Definition position_zero : position_t :=
  {| position_available := false; position_latitude := 0;
     position_longitude := 0; position_altitude := Float32.zero |}.

Definition AHRS_state_zero : AHRS_state :=
  {| structure_version := 0; time_us := 0;
     status := AHRS_STATUS_INITIALISING;
     quat := zeros 4; eulers := zeros 3;
     origin := origin_zero; position := position_zero;
     relative_position := zeros 3; gyro_rate := zeros 3;
     accel_ef := zeros 3 |}.

Definition gyro_sample_zero : gyro_sample :=
  {| gyro_structure_version := 0; gyro_time_us := 0; gyro_instance := 0;
     gyro_delta_time := Float32.zero; gyro := zeros 3 |}.

Definition accel_sample_zero : accel_sample :=
  {| accel_structure_version := 0; accel_time_us := 0; accel_instance := 0;
     accel_delta_time := Float32.zero; accel := zeros 3 |}.

(** Assignments to one member of the AHRS snapshot, the others kept:
    [set_f v s] is [s.f = v], and for an array member [set_f i v s] is
    [s.f[i] = v]. *)
Definition set_structure_version (v : Z) (s : AHRS_state) : AHRS_state :=
  {| structure_version := v;
     time_us := time_us s;
     status := status s;
     quat := quat s;
     eulers := eulers s;
     origin := origin s;
     position := position s;
     relative_position := relative_position s;
     gyro_rate := gyro_rate s;
     accel_ef := accel_ef s |}.

Definition set_time_us (v : Z) (s : AHRS_state) : AHRS_state :=
  {| structure_version := structure_version s;
     time_us := v;
     status := status s;
     quat := quat s;
     eulers := eulers s;
     origin := origin s;
     position := position s;
     relative_position := relative_position s;
     gyro_rate := gyro_rate s;
     accel_ef := accel_ef s |}.

Definition set_status (v : AHRS_status) (s : AHRS_state) : AHRS_state :=
  {| structure_version := structure_version s;
     time_us := time_us s;
     status := v;
     quat := quat s;
     eulers := eulers s;
     origin := origin s;
     position := position s;
     relative_position := relative_position s;
     gyro_rate := gyro_rate s;
     accel_ef := accel_ef s |}.

Definition set_quat (i : nat) (v : float) (s : AHRS_state) : AHRS_state :=
  {| structure_version := structure_version s;
     time_us := time_us s;
     status := status s;
     quat := array_set (quat s) i v;
     eulers := eulers s;
     origin := origin s;
     position := position s;
     relative_position := relative_position s;
     gyro_rate := gyro_rate s;
     accel_ef := accel_ef s |}.

Definition set_eulers (i : nat) (v : float) (s : AHRS_state) : AHRS_state :=
  {| structure_version := structure_version s;
     time_us := time_us s;
     status := status s;
     quat := quat s;
     eulers := array_set (eulers s) i v;
     origin := origin s;
     position := position s;
     relative_position := relative_position s;
     gyro_rate := gyro_rate s;
     accel_ef := accel_ef s |}.

Definition set_origin (v : origin_t) (s : AHRS_state) : AHRS_state :=
  {| structure_version := structure_version s;
     time_us := time_us s;
     status := status s;
     quat := quat s;
     eulers := eulers s;
     origin := v;
     position := position s;
     relative_position := relative_position s;
     gyro_rate := gyro_rate s;
     accel_ef := accel_ef s |}.

Definition set_position (v : position_t) (s : AHRS_state) : AHRS_state :=
  {| structure_version := structure_version s;
     time_us := time_us s;
     status := status s;
     quat := quat s;
     eulers := eulers s;
     origin := origin s;
     position := v;
     relative_position := relative_position s;
     gyro_rate := gyro_rate s;
     accel_ef := accel_ef s |}.

Definition set_relative_position (i : nat) (v : float) (s : AHRS_state) : AHRS_state :=
  {| structure_version := structure_version s;
     time_us := time_us s;
     status := status s;
     quat := quat s;
     eulers := eulers s;
     origin := origin s;
     position := position s;
     relative_position := array_set (relative_position s) i v;
     gyro_rate := gyro_rate s;
     accel_ef := accel_ef s |}.

Definition set_gyro_rate (i : nat) (v : float) (s : AHRS_state) : AHRS_state :=
  {| structure_version := structure_version s;
     time_us := time_us s;
     status := status s;
     quat := quat s;
     eulers := eulers s;
     origin := origin s;
     position := position s;
     relative_position := relative_position s;
     gyro_rate := array_set (gyro_rate s) i v;
     accel_ef := accel_ef s |}.

Definition set_accel_ef (i : nat) (v : float) (s : AHRS_state) : AHRS_state :=
  {| structure_version := structure_version s;
     time_us := time_us s;
     status := status s;
     quat := quat s;
     eulers := eulers s;
     origin := origin s;
     position := position s;
     relative_position := relative_position s;
     gyro_rate := gyro_rate s;
     accel_ef := array_set (accel_ef s) i v |}.

(** ** The navigation source (AP_AHRS_NavEKF), as far as it is read *)

(** Modelled from the spec: class [AP_AHRS_NavEKF], not among the
    sources, reduced to the members [call_hook_AHRS_update] reads.  An
    accessor with a boolean result and an output parameter is an
    [option]: [None] when it returns [false]. *)

Record AP_AHRS_NavEKF := {
  initialised : bool;
  healthy : bool;
  get_rotation_body_to_ned : Matrix3f;
  roll : float;
  pitch : float;
  yaw : float;
  get_origin : option Location;
  get_position : option Location;
  get_relative_position_NED : option Vector3f;
  get_gyro : Vector3f;
  get_accel_ef : Vector3f
}.

Inductive accessor :=
| A_initialised | A_healthy | A_get_rotation_body_to_ned
| A_roll | A_pitch | A_yaw
| A_get_origin | A_get_position | A_get_relative_position_NED
| A_get_gyro | A_get_accel_ef.

(** ** Hooks *)

(** Modelled from the spec: the hook enumeration of AP_Module.h, not
    among the sources; its order is that of [hook_names]. *)
Inductive hook_id :=
| HOOK_SETUP_START
| HOOK_SETUP_COMPLETE
| HOOK_AHRS_UPDATE
| HOOK_GYRO_SAMPLE
| HOOK_ACCEL_SAMPLE.

(** The values [0 .. NUM_HOOKS-1] in the order the scan loop visits. *)
Definition all_hooks : list hook_id :=
  [HOOK_SETUP_START; HOOK_SETUP_COMPLETE; HOOK_AHRS_UPDATE;
   HOOK_GYRO_SAMPLE; HOOK_ACCEL_SAMPLE].

Definition hook_names (i : hook_id) : string :=
  match i with
  | HOOK_SETUP_START => "hook_setup_start"
  | HOOK_SETUP_COMPLETE => "hook_setup_complete"
  | HOOK_AHRS_UPDATE => "hook_AHRS_update"
  | HOOK_GYRO_SAMPLE => "hook_gyro_sample"
  | HOOK_ACCEL_SAMPLE => "hook_accel_sample"
  end.

Definition hook_id_eq_dec (i j : hook_id) : {i = j} + {i <> j}.
Proof. decide equality. Defined.

(** A module handle ([void *] from [dlopen]) and a resolved symbol
    ([void *] from [dlsym]) are addresses. *)
Definition handle : Type := Z.
Definition symbol : Type := Z.

(** ** What the code does to the outside *)

Inductive event :=
| EvDlopen (path : string)
| EvPrintf (path : string) (dlerror : string)
| EvDlclose (m : handle)
| EvRead (a : accessor)
| EvSetupStart (fn : symbol) (now : Z)
| EvSetupComplete (fn : symbol) (now : Z)
| EvAHRSUpdate (fn : symbol) (state : AHRS_state)
| EvGyroSample (fn : symbol) (state : gyro_sample)
| EvAccelSample (fn : symbol) (state : accel_sample).

(** ** Build-time configuration and run-time environment

    [platform] holds what the build fixes: whether [HAVE_LIBDL] is
    defined, the three version constants of AP_Module_Structures.h and
    [Quaternion::from_rotation_matrix] of AP_Math.  [world] holds what
    the operating system answers. *)

Record platform := {
  HAVE_LIBDL : bool;
  AHRS_state_version : Z;
  gyro_sample_version : Z;
  accel_sample_version : Z;
  from_rotation_matrix : Matrix3f -> Quaternion
}.

Record world := {
  (** [opendir]/[readdir]: the names successive [readdir] calls yield,
      or [None] when the directory cannot be opened. *)
  opendir : string -> option (list string);
  (** Whether [asprintf] finds memory for the path of an entry. *)
  asprintf_ok : string -> string -> bool;
  dlopen : string -> option handle;
  dlerror : string -> string;
  dlsym : handle -> string -> option symbol;
  (** Whether [new hook_list] succeeds for hook [i] of module [m]. *)
  new_hook_list_ok : handle -> hook_id -> bool;
  (** The value the n-th read of the microsecond clock returns. *)
  micros64_at : nat -> Z
}.

(** ** The process state: the registry and the number of clock reads *)

Record process := {
  hooks : hook_id -> list symbol;
  clock_reads : nat
}.

(** The state after one more read of the clock. *)
Definition tick (s : process) : process :=
  {| hooks := hooks s; clock_reads := S (clock_reads s) |}.

(** Static storage: every list head is null. *)
Definition boot : process := {| hooks := fun _ => []; clock_reads := 0 |}.

(** ** A small monad: state, emitted events, and panic *)

Inductive result (A : Type) :=
| Done (a : A) (s : process)
| Panic (msg : string).
Arguments Done {A} a s.
Arguments Panic {A} msg.

Definition M (A : Type) : Type := process -> list event * result A.

Definition ret {A} (a : A) : M A := fun s => ([], Done a s).

Definition bind {A B} (m : M A) (f : A -> M B) : M B :=
  fun s =>
    match m s with
    | (t1, Done a s1) =>
        match f a s1 with
        | (t2, r) => ((t1 ++ t2)%list, r)
        end
    | (t1, Panic msg) => (t1, Panic msg)
    end.

Declare Scope monad_scope.
Delimit Scope monad_scope with monad.
Notation "x <- c1 ;; c2" := (bind c1 (fun x => c2))
  (at level 61, c1 at next level, right associativity) : monad_scope.
Notation "c1 ;; c2" := (bind c1 (fun _ => c2))
  (at level 61, right associativity) : monad_scope.
Local Open Scope monad_scope.

Definition emit (e : event) : M unit := fun s => ([e], Done tt s).

Definition panic {A} (msg : string) : M A := fun _ => ([], Panic msg).

Definition get_hooks (i : hook_id) : M (list symbol) :=
  fun s => ([], Done (hooks s i) s).

(** [h->next = hooks[i]; h->symbol = sym; hooks[i] = h]. *)
Definition prepend (i : hook_id) (sym : symbol) : M unit :=
  fun s =>
    ([], Done tt
           {| hooks := fun j => if hook_id_eq_dec i j
                                then sym :: hooks s j else hooks s j;
              clock_reads := clock_reads s |}).

Fixpoint for_each {A} (l : list A) (body : A -> M unit) : M unit :=
  match l with
  | [] => ret tt
  | x :: rest => body x ;; for_each rest body
  end.

(** The events and the outcome of running a computation. *)
Definition events {A} (m : M A) (s : process) : list event := fst (m s).
Definition outcome {A} (m : M A) (s : process) : result A := snd (m s).

(** ** The code of AP_Module.cpp *)

Section AP_Module.

Variable P : platform.
Variable W : world.

(** One pass of the loop body of [module_scan] per hook, with the
    local [found_hook] threaded through. *)
Fixpoint scan_symbols (m : handle) (ids : list hook_id) (found_hook : bool)
  : M bool :=
  match ids with
  | [] => ret found_hook
  | i :: rest =>
      match dlsym W m (hook_names i) with
      | Some s =>
          (* found a hook in this module, add it to the list *)
          if new_hook_list_ok W m i then
            prepend i s ;;
            scan_symbols m rest true
          else
            panic ("Failed to allocate hook for " ++ hook_names i)
      | None => scan_symbols m rest found_hook
      end
  end.

(** scan a module for hook symbols *)
Definition module_scan (path : string) : M unit :=
  if HAVE_LIBDL P then
    emit (EvDlopen path) ;;
    match dlopen W path with
    | None => emit (EvPrintf path (dlerror W path))
    | Some m =>
        found_hook <- scan_symbols m all_hooks false ;;
        if negb found_hook then
          (* we don't need this module *)
          emit (EvDlclose m)
        else ret tt
    end
  else ret tt.

(** The body of the [readdir] loop of [init] for one entry;
    [ret tt] is [continue]. *)
Definition init_entry (module_path d_name : string) : M unit :=
  let extension := CString.strrchr d_name "." in
  if match extension with
     | None => true
     | Some extension => negb (Z.eqb (CString.strcmp extension ".so") 0)
     end
  then ret tt
  else if negb (asprintf_ok W module_path d_name) then ret tt
  else module_scan (module_path ++ "/" ++ d_name).

(** initialise AP_Module, looking for shared libraries in the given
    module path *)
Definition init (module_path : string) : M unit :=
  match opendir W module_path with
  | None => ret tt
  | Some entries => for_each entries (init_entry module_path)
  end.

(** [AP_HAL::micros64()]. *)
Definition micros64 : M Z :=
  fun s => ([], Done (micros64_at W (clock_reads s)) (tick s)).

(** A read of the navigation source. *)
Definition read {A} (a : accessor) (v : A) : M A :=
  emit (EvRead a) ;; ret v.

(** call any setup_start hooks *)
Definition call_hook_setup_start : M unit :=
  now <- micros64 ;;
  hs <- get_hooks HOOK_SETUP_START ;;
  for_each hs (fun fn => emit (EvSetupStart fn now)).

(** call any setup_complete hooks *)
Definition call_hook_setup_complete : M unit :=
  now <- micros64 ;;
  hs <- get_hooks HOOK_SETUP_COMPLETE ;;
  for_each hs (fun fn => emit (EvSetupComplete fn now)).

(** The block of [call_hook_AHRS_update] under the comment
    "construct AHRS_state structure". *)
Definition construct_AHRS_state (ahrs : AP_AHRS_NavEKF) : M AHRS_state :=
  let state := AHRS_state_zero in
  let state := set_structure_version (AHRS_state_version P) state in
  now <- micros64 ;;
  let state := set_time_us now state in

  is_init <- read A_initialised (initialised ahrs) ;;
  state <- (if negb is_init then
              ret (set_status AHRS_STATUS_INITIALISING state)
            else
              is_healthy <- read A_healthy (healthy ahrs) ;;
              if is_healthy then
                ret (set_status AHRS_STATUS_HEALTHY state)
              else
                ret (set_status AHRS_STATUS_UNHEALTHY state)) ;;

  rot <- read A_get_rotation_body_to_ned (get_rotation_body_to_ned ahrs) ;;
  let q := from_rotation_matrix P rot in
  let state := set_quat 0 (Quaternion_at q 0) state in
  let state := set_quat 1 (Quaternion_at q 1) state in
  let state := set_quat 2 (Quaternion_at q 2) state in
  let state := set_quat 3 (Quaternion_at q 3) state in

  r <- read A_roll (roll ahrs) ;;
  let state := set_eulers 0 r state in
  p <- read A_pitch (pitch ahrs) ;;
  let state := set_eulers 1 p state in
  y <- read A_yaw (yaw ahrs) ;;
  let state := set_eulers 2 y state in

  got_origin <- read A_get_origin (get_origin ahrs) ;;
  let state :=
    match got_origin with
    | Some loc =>
        set_origin
          {| origin_initialised := true;
             origin_latitude := lat loc;
             origin_longitude := lng loc;
             origin_altitude :=
               Float32.mul (Float32.of_int (alt loc)) Float32.lit_0_01f |}
          state
    | None => state
    end in

  got_position <- read A_get_position (get_position ahrs) ;;
  let state :=
    match got_position with
    | Some loc =>
        set_position
          {| position_available := true;
             position_latitude := lat loc;
             position_longitude := lng loc;
             position_altitude :=
               Float32.mul (Float32.of_int (alt loc)) Float32.lit_0_01f |}
          state
    | None => state
    end in

  got_pos <- read A_get_relative_position_NED
               (get_relative_position_NED ahrs) ;;
  let state :=
    match got_pos with
    | Some pos =>
        let state := set_relative_position 0 (Vector3f_at pos 0) state in
        let state := set_relative_position 1 (Vector3f_at pos 1) state in
        set_relative_position 2 (Vector3f_at pos 2) state
    | None => state
    end in

  gyro <- read A_get_gyro (get_gyro ahrs) ;;
  let state := set_gyro_rate 0 (Vector3f_at gyro 0) state in
  let state := set_gyro_rate 1 (Vector3f_at gyro 1) state in
  let state := set_gyro_rate 2 (Vector3f_at gyro 2) state in

  accel_ef <- read A_get_accel_ef (get_accel_ef ahrs) ;;
  let state := set_accel_ef 0 (Vector3f_at accel_ef 0) state in
  let state := set_accel_ef 1 (Vector3f_at accel_ef 0) state in
  let state := set_accel_ef 2 (Vector3f_at accel_ef 0) state in
  ret state.

(** call any AHRS_update hooks *)
Definition call_hook_AHRS_update (ahrs : AP_AHRS_NavEKF) : M unit :=
  hs <- get_hooks HOOK_AHRS_UPDATE ;;
  match hs with
  | [] =>
      (* avoid filling in AHRS_state *)
      ret tt
  | _ :: _ =>
      state <- construct_AHRS_state ahrs ;;
      hs <- get_hooks HOOK_AHRS_UPDATE ;;
      for_each hs (fun fn => emit (EvAHRSUpdate fn state))
  end.

(** call any gyro_sample hooks *)
Definition call_hook_gyro_sample (instance : Z) (dt : float)
    (gyro : Vector3f) : M unit :=
  hs <- get_hooks HOOK_GYRO_SAMPLE ;;
  match hs with
  | [] =>
      (* avoid filling in struct *)
      ret tt
  | _ :: _ =>
      (* construct gyro_sample structure *)
      now <- micros64 ;;
      let state :=
        {| gyro_structure_version := gyro_sample_version P;
           gyro_time_us := now;
           gyro_instance := instance;
           gyro_delta_time := dt;
           gyro :=
             array_set
               (array_set
                  (array_set (zeros 3) 0 (Vector3f_at gyro 0))
                  1 (Vector3f_at gyro 1))
               2 (Vector3f_at gyro 2) |} in
      hs <- get_hooks HOOK_GYRO_SAMPLE ;;
      for_each hs (fun fn => emit (EvGyroSample fn state))
  end.

(** call any accel_sample hooks *)
Definition call_hook_accel_sample (instance : Z) (dt : float)
    (accel : Vector3f) : M unit :=
  hs <- get_hooks HOOK_ACCEL_SAMPLE ;;
  match hs with
  | [] =>
      (* avoid filling in struct *)
      ret tt
  | _ :: _ =>
      (* construct accel_sample structure *)
      now <- micros64 ;;
      let state :=
        {| accel_structure_version := accel_sample_version P;
           accel_time_us := now;
           accel_instance := instance;
           accel_delta_time := dt;
           accel :=
             array_set
               (array_set
                  (array_set (zeros 3) 0 (Vector3f_at accel 0))
                  1 (Vector3f_at accel 1))
               2 (Vector3f_at accel 2) |} in
      hs <- get_hooks HOOK_ACCEL_SAMPLE ;;
      for_each hs (fun fn => emit (EvAccelSample fn state))
  end.

End AP_Module.

(** ** Vocabulary of the properties *)

(** The five dispatch operations with their arguments. *)
Inductive dispatch_request :=
| SetupStart
| SetupComplete
| AHRSUpdate (ahrs : AP_AHRS_NavEKF)
| GyroSample (instance : Z) (dt : float) (gyro : Vector3f)
| AccelSample (instance : Z) (dt : float) (accel : Vector3f).

Definition hook_of (r : dispatch_request) : hook_id :=
  match r with
  | SetupStart => HOOK_SETUP_START
  | SetupComplete => HOOK_SETUP_COMPLETE
  | AHRSUpdate _ => HOOK_AHRS_UPDATE
  | GyroSample _ _ _ => HOOK_GYRO_SAMPLE
  | AccelSample _ _ _ => HOOK_ACCEL_SAMPLE
  end.

Definition dispatch (P : platform) (W : world) (r : dispatch_request)
  : M unit :=
  match r with
  | SetupStart => call_hook_setup_start W
  | SetupComplete => call_hook_setup_complete W
  | AHRSUpdate ahrs => call_hook_AHRS_update P W ahrs
  | GyroSample instance dt gyro => call_hook_gyro_sample P W instance dt gyro
  | AccelSample instance dt accel =>
      call_hook_accel_sample P W instance dt accel
  end.

(** Scanning several modules one after the other, as the loop of [init]
    does for the entries it keeps. *)
Definition scan_all (P : platform) (W : world) (paths : list string)
  : M unit :=
  for_each paths (module_scan P W).

(** The entry point an event calls, if it is a call into a module. *)
Definition callee (e : event) : option symbol :=
  match e with
  | EvSetupStart fn _ | EvSetupComplete fn _ => Some fn
  | EvAHRSUpdate fn _ => Some fn
  | EvGyroSample fn _ | EvAccelSample fn _ => Some fn
  | _ => None
  end.

(** The entry points called, in call order. *)
Fixpoint invoked (t : list event) : list symbol :=
  match t with
  | [] => []
  | e :: rest =>
      match callee e with
      | Some fn => fn :: invoked rest
      | None => invoked rest
      end
  end.

(** The paths handed to [dlopen], in order. *)
Fixpoint load_attempts (t : list event) : list string :=
  match t with
  | [] => []
  | EvDlopen path :: rest => path :: load_attempts rest
  | _ :: rest => load_attempts rest
  end.

(** The AHRS snapshots passed to entry points, in call order. *)
Fixpoint AHRS_snapshots (t : list event) : list AHRS_state :=
  match t with
  | [] => []
  | EvAHRSUpdate _ state :: rest => state :: AHRS_snapshots rest
  | _ :: rest => AHRS_snapshots rest
  end.

(** A call event carries the version constant of its snapshot type. *)
Definition version_ok (P : platform) (e : event) : Prop :=
  match e with
  | EvAHRSUpdate _ state => structure_version state = AHRS_state_version P
  | EvGyroSample _ state =>
      gyro_structure_version state = gyro_sample_version P
  | EvAccelSample _ state =>
      accel_structure_version state = accel_sample_version P
  | _ => True
  end.

(** A trace that consists of reads of the navigation source only. *)
Definition only_reads (t : list event) : Prop :=
  Forall (fun e => exists a, e = EvRead a) t.

(** The design document's reading of the altitude conversion: the float
    stands for exactly the centimetre count divided by 100. *)
Definition is_cm_over_100 (altitude : float) (cm : Z) : Prop :=
  exists q, Float32.to_Q altitude = Some q /\ (q == cm # 100)%Q.

(** What the code achieves instead: the float is within a relative
    2^-22 of the centimetre count divided by 100. *)
Definition is_about_cm_over_100 (altitude : float) (cm : Z) : Prop :=
  exists q,
    Float32.to_Q altitude = Some q /\
    (Qabs (q - (cm # 100)) <= Qabs (cm # 100) * (1 # 2 ^ 22))%Q.

(** The symbols a scan of module [m] over the hooks [ids] puts in front
    of the list of hook [X], first in the list first. *)
Fixpoint registered (W : world) (m : handle) (ids : list hook_id)
    (X : hook_id) : list symbol :=
  match ids with
  | [] => []
  | i :: rest =>
      (registered W m rest X ++
       (if hook_id_eq_dec i X then
          match dlsym W m (hook_names i) with
          | Some s => [s]
          | None => []
          end
        else []))%list
  end.

(** What [dlsym] resolves in module [m] for hook [X], as a list. *)
Definition found_for (W : world) (m : handle) (X : hook_id) : list symbol :=
  match dlsym W m (hook_names X) with
  | Some s => [s]
  | None => []
  end.

(** The message of the one panic in the code. *)
Definition allocation_panic (msg : string) : Prop :=
  exists i, msg = "Failed to allocate hook for " ++ hook_names i.

(** The entries the filter of [init] lets through. *)
Definition passes_filter (d_name : string) : bool :=
  match CString.strrchr d_name "." with
  | None => false
  | Some extension => Z.eqb (CString.strcmp extension ".so") 0
  end.

(** The same world with another listing for one directory. *)
Definition with_listing (W : world) (dir : string) (entries : list string)
  : world :=
  {| opendir := fun d => if String.eqb d dir then Some entries
                         else opendir W d;
     asprintf_ok := asprintf_ok W;
     dlopen := dlopen W;
     dlerror := dlerror W;
     dlsym := dlsym W;
     new_hook_list_ok := new_hook_list_ok W;
     micros64_at := micros64_at W |}.

(** ** Vocabulary of the further properties *)

(** Events of discovery: loading, the diagnostic, unloading. *)
Definition is_discovery (e : event) : bool :=
  match e with
  | EvDlopen _ | EvPrintf _ _ | EvDlclose _ => true
  | _ => false
  end.

(** The paths of the entries [init] scans: those that pass the filter
    and whose path can be built, in directory order. *)
Definition kept (W : world) (module_path : string) (entries : list string)
  : list string :=
  map (fun d => module_path ++ "/" ++ d)
      (filter (fun d => passes_filter d && asprintf_ok W module_path d)
              entries).

(** What one scan puts in front of the list of hook [X]. *)
Definition module_front (P : platform) (W : world) (path : string)
    (X : hook_id) : list symbol :=
  if HAVE_LIBDL P then
    match dlopen W path with
    | Some m => found_for W m X
    | None => []
    end
  else [].

(** What a sequence of scans puts in front of the list of hook [X]: the
    symbols of the modules scanned last come first. *)
Fixpoint scan_front (P : platform) (W : world) (paths : list string)
    (X : hook_id) : list symbol :=
  match paths with
  | [] => []
  | p :: rest => (scan_front P W rest X ++ module_front P W p X)%list
  end.

(** What [init] on a directory puts in front of the list of hook [X]. *)
Definition discovered (P : platform) (W : world) (module_path : string)
    (X : hook_id) : list symbol :=
  match opendir W module_path with
  | None => []
  | Some entries => scan_front P W (kept W module_path entries) X
  end.

(** The status the construction block derives from the two flags. *)
Definition status_of (ahrs : AP_AHRS_NavEKF) : AHRS_status :=
  if negb (initialised ahrs) then AHRS_STATUS_INITIALISING
  else if healthy ahrs then AHRS_STATUS_HEALTHY
  else AHRS_STATUS_UNHEALTHY.

(** ** A concrete installation, used to run the model

    Three directories.  [/mods] holds [a.so] (which exports no hook),
    [b.txt] and [c.SO].  [/two] holds [A.so] and [B.so], which both
    export [hook_AHRS_update] among others.  [/flaky] holds [x.so], for
    which the path cannot be built, followed by [A.so]. *)

Module Demo.

Definition vec (a b c : Z) : Vector3f :=
  {| vx := Float32.of_int a; vy := Float32.of_int b;
     vz := Float32.of_int c |}.

(** A stand-in for AP_Math's conversion, enough to run examples: it
    keeps the diagonal of the matrix. *)
Definition diagonal (m : Matrix3f) : Quaternion :=
  {| q1 := Float32.of_int 1; q2 := vx (row_a m);
     q3 := vy (row_b m); q4 := vz (row_c m) |}.

Definition P : platform :=
  {| HAVE_LIBDL := true;
     AHRS_state_version := 1;
     gyro_sample_version := 1;
     accel_sample_version := 2;
     from_rotation_matrix := diagonal |}.

Definition W : world :=
  {| opendir := fun d =>
       if String.eqb d "/mods" then Some ["a.so"; "b.txt"; "c.SO"]
       else if String.eqb d "/two" then Some ["A.so"; "B.so"]
       else if String.eqb d "/flaky" then Some ["x.so"; "A.so"]
       else None;
     asprintf_ok := fun _ d_name => negb (String.eqb d_name "x.so");
     dlopen := fun path =>
       if String.eqb path "/mods/a.so" then Some 16
       else if String.eqb path "/two/A.so" then Some 32
       else if String.eqb path "/two/B.so" then Some 48
       else if String.eqb path "/flaky/A.so" then Some 32
       else None;
     dlerror := fun _ => "cannot open shared object file";
     dlsym := fun m name =>
       if Z.eqb m 32 then
         if String.eqb name "hook_setup_start" then Some 33
         else if String.eqb name "hook_AHRS_update" then Some 35
         else None
       else if Z.eqb m 48 then
         if String.eqb name "hook_AHRS_update" then Some 51
         else if String.eqb name "hook_gyro_sample" then Some 52
         else if String.eqb name "hook_accel_sample" then Some 53
         else None
       else None;
     new_hook_list_ok := fun _ _ => true;
     micros64_at := fun n => 1000 * Z.of_nat (S n) |}.

(** The process after [init("/two")] from boot. *)
Definition two_modules : process :=
  match outcome (init P W "/two") boot with
  | Done _ s => s
  | Panic _ => boot
  end.

Definition identity_matrix : Matrix3f :=
  {| row_a := vec 1 0 0; row_b := vec 0 1 0; row_c := vec 0 0 1 |}.

(** A healthy source, level, with the given cached roll, origin and
    earth-frame acceleration. *)
Definition source (cached_roll : float) (origin : option Location)
    (accel_ef : Vector3f) : AP_AHRS_NavEKF :=
  {| initialised := true;
     healthy := true;
     get_rotation_body_to_ned := identity_matrix;
     roll := cached_roll;
     pitch := Float32.zero;
     yaw := Float32.zero;
     get_origin := origin;
     get_position := None;
     get_relative_position_NED := None;
     get_gyro := vec 0 0 0;
     get_accel_ef := accel_ef |}.

End Demo.

(** The same installation short of memory: the registration node for
    [hook_AHRS_update] of [B.so] cannot be allocated. *)
Definition low_memory : world :=
  {| opendir := opendir Demo.W;
     asprintf_ok := asprintf_ok Demo.W;
     dlopen := dlopen Demo.W;
     dlerror := dlerror Demo.W;
     dlsym := dlsym Demo.W;
     new_hook_list_ok := fun m i =>
       negb (Z.eqb m 48 &&
             if hook_id_eq_dec i HOOK_AHRS_UPDATE then true else false);
     micros64_at := micros64_at Demo.W |}.

(** The same installation built without libdl. *)
Definition no_libdl : platform :=
  {| HAVE_LIBDL := false;
     AHRS_state_version := AHRS_state_version Demo.P;
     gyro_sample_version := gyro_sample_version Demo.P;
     accel_sample_version := accel_sample_version Demo.P;
     from_rotation_matrix := from_rotation_matrix Demo.P |}.

(** * Properties *)

(** ** Running the monad *)

Section Monad_facts.

Context {A B : Type}.

Lemma bind_done (m : M A) (f : A -> M B) s b s' :
  outcome (bind m f) s = Done b s' ->
  exists a s1, outcome m s = Done a s1 /\ outcome (f a) s1 = Done b s'.
Proof.
  unfold outcome, bind.
  destruct (m s) as [t1 [a s1 | msg]]; simpl.
  - destruct (f a s1) as [t2 r] eqn:E; simpl; intros ->.
    exists a, s1. rewrite E. auto.
  - discriminate.
Qed.

Lemma bind_events_done (m : M A) (f : A -> M B) s a s1 :
  outcome m s = Done a s1 ->
  events (bind m f) s = (events m s ++ events (f a) s1)%list /\
  outcome (bind m f) s = outcome (f a) s1.
Proof.
  unfold outcome, events, bind.
  destruct (m s) as [t1 r]; simpl; intros ->.
  destruct (f a s1); auto.
Qed.

Lemma bind_events_panic (m : M A) (f : A -> M B) s msg :
  outcome m s = Panic msg ->
  events (bind m f) s = events m s /\ outcome (bind m f) s = Panic msg.
Proof.
  unfold outcome, events, bind.
  destruct (m s) as [t1 r]; simpl; intros ->; auto.
Qed.

End Monad_facts.

Lemma run_eq {A} (m : M A) s : m s = (events m s, outcome m s).
Proof. unfold events, outcome. destruct (m s); reflexivity. Qed.

Lemma for_each_emit {A} (f : A -> event) (l : list A) s :
  for_each l (fun x => emit (f x)) s = (map f l, Done tt s).
Proof.
  induction l as [| x l IH]; simpl; [reflexivity |].
  unfold bind, emit at 1. rewrite IH. reflexivity.
Qed.

Lemma invoked_app t1 t2 : invoked (t1 ++ t2) = (invoked t1 ++ invoked t2)%list.
Proof.
  induction t1 as [| e t1 IH]; simpl; [reflexivity |].
  destruct (callee e); simpl; now rewrite IH.
Qed.

Lemma load_attempts_app t1 t2 :
  load_attempts (t1 ++ t2) = (load_attempts t1 ++ load_attempts t2)%list.
Proof.
  induction t1 as [| e t1 IH]; simpl; [reflexivity |].
  destruct e; simpl; now rewrite IH.
Qed.

Lemma invoked_map_calls {X} (f : symbol -> X -> event) (x : X) l :
  (forall fn, callee (f fn x) = Some fn) ->
  invoked (map (fun fn => f fn x) l) = l.
Proof.
  intros H. induction l as [| fn l IH]; simpl; [reflexivity |].
  now rewrite H, IH.
Qed.

(** ** The AHRS snapshot *)

Lemma only_reads_invoked t : only_reads t -> invoked t = [].
Proof. induction 1 as [| e t [a ->] _ IH]; simpl; auto. Qed.

Lemma only_reads_snapshots t : only_reads t -> AHRS_snapshots t = [].
Proof. induction 1 as [| e t [a ->] _ IH]; simpl; auto. Qed.

Lemma only_reads_version_ok P t : only_reads t -> Forall (version_ok P) t.
Proof. induction 1 as [| e t [a ->] _ IH]; constructor; simpl; auto. Qed.

(** What the construction block yields: it reads the clock once, only
    reads the source, and fills the members as listed. *)
Lemma construct_AHRS_state_spec P W ahrs st :
  exists reads snap,
    construct_AHRS_state P W ahrs st = (reads, Done snap (tick st)) /\
    only_reads reads /\
    structure_version snap = AHRS_state_version P /\
    quat snap =
      (let q := from_rotation_matrix P (get_rotation_body_to_ned ahrs) in
       [q1 q; q2 q; q3 q; q4 q]) /\
    eulers snap = [roll ahrs; pitch ahrs; yaw ahrs] /\
    origin snap =
      match get_origin ahrs with
      | Some loc =>
          {| origin_initialised := true;
             origin_latitude := lat loc;
             origin_longitude := lng loc;
             origin_altitude :=
               Float32.mul (Float32.of_int (alt loc)) Float32.lit_0_01f |}
      | None => origin_zero
      end /\
    gyro_rate snap =
      [vx (get_gyro ahrs); vy (get_gyro ahrs); vz (get_gyro ahrs)] /\
    accel_ef snap =
      [vx (get_accel_ef ahrs); vx (get_accel_ef ahrs); vx (get_accel_ef ahrs)].
Proof.
  destruct ahrs as [i h rot r p y o po rp g a].
  destruct i, h, o, po, rp; cbn;
    do 2 eexists; (split; [reflexivity |]);
    (split; [repeat constructor; eauto |]);
    repeat split.
Qed.

(** The construction block does read the source: every accessor except
    [healthy] on every run, and [healthy] when the source is initialised. *)
Lemma construct_AHRS_state_reads P W ahrs st a :
  a <> A_healthy \/ initialised ahrs = true ->
  In (EvRead a) (events (construct_AHRS_state P W ahrs) st).
Proof.
  destruct ahrs as [i h rot r p y o po rp g ae]. simpl.
  intros Ha.
  destruct i, h, o, po, rp; cbn;
    destruct a; try tauto;
    destruct Ha as [Ha | Ha]; congruence.
Qed.

Lemma call_hook_AHRS_update_empty P W ahrs st :
  hooks st HOOK_AHRS_UPDATE = [] ->
  call_hook_AHRS_update P W ahrs st = ([], Done tt st).
Proof.
  intros E. unfold call_hook_AHRS_update, bind, get_hooks.
  rewrite E. reflexivity.
Qed.

(** With a non-empty list: the reads, then one call per registration in
    list order, all with the same snapshot. *)
Lemma call_hook_AHRS_update_run P W ahrs st :
  hooks st HOOK_AHRS_UPDATE <> [] ->
  exists reads snap,
    construct_AHRS_state P W ahrs st = (reads, Done snap (tick st)) /\
    call_hook_AHRS_update P W ahrs st =
      ((reads ++ map (fun fn => EvAHRSUpdate fn snap)
                     (hooks st HOOK_AHRS_UPDATE))%list,
       Done tt (tick st)).
Proof.
  intros NE.
  destruct (construct_AHRS_state_spec P W ahrs st)
    as (reads & snap & Hrun & _).
  exists reads, snap. split; [exact Hrun |].
  unfold call_hook_AHRS_update, bind at 1, get_hooks at 1.
  destruct (hooks st HOOK_AHRS_UPDATE) as [| fn rest] eqn:E; [congruence |].
  unfold bind at 1. rewrite Hrun.
  unfold bind at 1, get_hooks. cbn [tick hooks].
  rewrite for_each_emit, E. reflexivity.
Qed.

Lemma AHRS_snapshots_calls snap l :
  AHRS_snapshots (map (fun fn => EvAHRSUpdate fn snap) l) =
  repeat snap (List.length l).
Proof. induction l; simpl; congruence. Qed.

Lemma AHRS_snapshots_app t1 t2 :
  AHRS_snapshots (t1 ++ t2) = (AHRS_snapshots t1 ++ AHRS_snapshots t2)%list.
Proof.
  induction t1 as [| e t1 IH]; simpl; [reflexivity |].
  destruct e; simpl; now rewrite IH.
Qed.

(** Every AHRS snapshot an update passes on is the one the construction
    block built in that call. *)
Lemma AHRS_snapshot_inv P W ahrs st snap :
  In snap (AHRS_snapshots (events (call_hook_AHRS_update P W ahrs) st)) ->
  exists reads,
    construct_AHRS_state P W ahrs st = (reads, Done snap (tick st)).
Proof.
  destruct (hooks st HOOK_AHRS_UPDATE) as [| fn rest] eqn:E.
  - unfold events. rewrite call_hook_AHRS_update_empty by exact E.
    simpl. tauto.
  - destruct (call_hook_AHRS_update_run P W ahrs st) as (reads & s0 & Hc & Hr).
    { rewrite E. discriminate. }
    destruct (construct_AHRS_state_spec P W ahrs st)
      as (reads' & s1 & Hc' & Hreads & _).
    rewrite Hc in Hc'. injection Hc' as <- <-.
    unfold events. rewrite Hr. simpl fst.
    rewrite AHRS_snapshots_app, (only_reads_snapshots _ Hreads),
      AHRS_snapshots_calls. simpl app.
    intros Hin. apply repeat_spec in Hin. subst snap.
    exists reads. exact Hc.
Qed.

(** ** The dispatch operations *)

Lemma Forall_map_version_ok {X} P (f : symbol -> X -> event) (x : X) l :
  (forall fn, version_ok P (f fn x)) ->
  Forall (version_ok P) (map (fun fn => f fn x) l).
Proof. intros H. induction l; simpl; constructor; auto. Qed.

(** Every dispatch returns; it keeps the registry, reads the clock at
    most once, calls exactly the registrations of its hook in list
    order, and every snapshot it passes carries its version constant. *)
Lemma dispatch_run P W req st :
  exists t n,
    dispatch P W req st =
      (t, Done tt {| hooks := hooks st; clock_reads := n |}) /\
    invoked t = hooks st (hook_of req) /\
    Forall (version_ok P) t.
Proof.
  destruct req as [| | ahrs | inst dt v | inst dt v]; simpl.
  - unfold call_hook_setup_start, bind, micros64, get_hooks.
    cbn [tick hooks]. rewrite for_each_emit.
    do 2 eexists. split; [reflexivity |]. split.
    + apply (invoked_map_calls EvSetupStart). reflexivity.
    + apply (Forall_map_version_ok P EvSetupStart). exact (fun _ => I).
  - unfold call_hook_setup_complete, bind, micros64, get_hooks.
    cbn [tick hooks]. rewrite for_each_emit.
    do 2 eexists. split; [reflexivity |]. split.
    + apply (invoked_map_calls EvSetupComplete). reflexivity.
    + apply (Forall_map_version_ok P EvSetupComplete). exact (fun _ => I).
  - destruct (hooks st HOOK_AHRS_UPDATE) as [| fn rest] eqn:E.
    + rewrite call_hook_AHRS_update_empty by exact E.
      exists [], (clock_reads st). destruct st; simpl in *.
      rewrite ?E. repeat split. constructor.
    + destruct (call_hook_AHRS_update_run P W ahrs st)
        as (reads & snap & Hc & Hr); [rewrite E; discriminate |].
      destruct (construct_AHRS_state_spec P W ahrs st)
        as (reads' & snap' & Hc' & Hreads & Hver & _).
      rewrite Hc in Hc'. injection Hc' as <- <-.
      rewrite Hr. do 2 eexists. split; [reflexivity |]. split.
      * rewrite invoked_app, (only_reads_invoked _ Hreads), <- E.
        apply (invoked_map_calls EvAHRSUpdate). reflexivity.
      * apply Forall_app. split; [now apply only_reads_version_ok |].
        apply (Forall_map_version_ok P EvAHRSUpdate). intros; exact Hver.
  - unfold call_hook_gyro_sample, bind at 1, get_hooks at 1.
    destruct (hooks st HOOK_GYRO_SAMPLE) as [| fn rest] eqn:E.
    + exists [], (clock_reads st). destruct st; simpl in *.
      rewrite ?E. repeat split. constructor.
    + unfold bind, micros64, get_hooks. cbn [tick hooks].
      rewrite for_each_emit, E.
      do 2 eexists. split; [reflexivity |]. split.
      * apply (invoked_map_calls EvGyroSample). reflexivity.
      * apply (Forall_map_version_ok P EvGyroSample). reflexivity.
  - unfold call_hook_accel_sample, bind at 1, get_hooks at 1.
    destruct (hooks st HOOK_ACCEL_SAMPLE) as [| fn rest] eqn:E.
    + exists [], (clock_reads st). destruct st; simpl in *.
      rewrite ?E. repeat split. constructor.
    + unfold bind, micros64, get_hooks. cbn [tick hooks].
      rewrite for_each_emit, E.
      do 2 eexists. split; [reflexivity |]. split.
      * apply (invoked_map_calls EvAccelSample). reflexivity.
      * apply (Forall_map_version_ok P EvAccelSample). reflexivity.
Qed.

(** ** Scanning a module *)

Section Scan_facts.

Variable P : platform.
Variable W : world.

(** The symbol loop emits nothing. *)
Lemma scan_symbols_silent m ids found st :
  events (scan_symbols W m ids found) st = [].
Proof.
  revert found st. induction ids as [| i rest IH]; intros found st.
  - reflexivity.
  - simpl. destruct (dlsym W m (hook_names i)) as [s |]; [| apply IH].
    destruct (new_hook_list_ok W m i); [| reflexivity].
    unfold events, bind, prepend. simpl.
    specialize (IH true
      {| hooks := fun j => if hook_id_eq_dec i j then s :: hooks st j
                           else hooks st j;
         clock_reads := clock_reads st |}).
    unfold events in IH.
    destruct (scan_symbols W m rest true _) as [t r]. simpl in *.
    exact IH.
Qed.

(** Without any recognised symbol the loop changes nothing. *)
Lemma scan_symbols_none m ids found st :
  (forall i, In i ids -> dlsym W m (hook_names i) = None) ->
  scan_symbols W m ids found st = ([], Done found st).
Proof.
  revert found st. induction ids as [| i rest IH]; intros found st H.
  - reflexivity.
  - simpl. rewrite (H i) by (left; reflexivity).
    apply IH. intros j Hj. apply H. right. exact Hj.
Qed.

(** The lists after the loop: what was found, in front of what was
    there. *)
Lemma scan_symbols_done m ids found st b st' :
  outcome (scan_symbols W m ids found) st = Done b st' ->
  (forall X, hooks st' X = (registered W m ids X ++ hooks st X)%list) /\
  clock_reads st' = clock_reads st /\
  (found = true -> b = true) /\
  (forall X, registered W m ids X <> [] -> b = true).
Proof.
  revert found st. induction ids as [| i rest IH]; intros found st.
  - unfold outcome. simpl. intros [= <- <-]. repeat split; auto.
    all: intros X H; now contradiction H.
  - simpl. destruct (dlsym W m (hook_names i)) as [s |] eqn:Es.
    + destruct (new_hook_list_ok W m i); [| discriminate].
      intros H. apply bind_done in H as (u & s1 & H1 & H2).
      unfold outcome, prepend in H1. simpl in H1. injection H1 as _ <-.
      apply IH in H2 as (Hh & Hc & Hb & _).
      specialize (Hb eq_refl). subst b.
      repeat split; auto.
      intros X. rewrite Hh. simpl. rewrite <- app_assoc.
      destruct (hook_id_eq_dec i X); reflexivity.
    + intros H. apply IH in H as (Hh & Hc & Hb & Hr).
      repeat split; auto.
      * intros X. rewrite Hh.
        destruct (hook_id_eq_dec i X); now rewrite ?app_nil_r.
      * intros X. destruct (hook_id_eq_dec i X);
          rewrite app_nil_r; apply Hr.
Qed.

(** The loop over all five hooks registers at most one symbol per
    hook: the one [dlsym] resolves for its name. *)
Lemma registered_all_hooks m X :
  registered W m all_hooks X =
  match dlsym W m (hook_names X) with
  | Some s => [s]
  | None => []
  end.
Proof.
  destruct X; simpl;
    match goal with
    | |- context [dlsym W m ?n] => destruct (dlsym W m n)
    end; reflexivity.
Qed.

End Scan_facts.

(** ** The suffix filter *)

Module CString_facts.
Import CString.

Lemma code_zero a : code a = 0 -> a = nul.
Proof.
  unfold code, nul. intros H.
  rewrite <- (ascii_nat_embedding a).
  replace (nat_of_ascii a) with O by lia. reflexivity.
Qed.

Lemma code_inj a b : code a = code b -> a = b.
Proof.
  unfold code. intros H. apply Nat2Z.inj in H.
  rewrite <- (ascii_nat_embedding a), <- (ascii_nat_embedding b).
  now rewrite H.
Qed.

(** On strings without a NUL byte, [strcmp] is 0 exactly on equal
    strings. *)
Lemma strcmp_eqb a b :
  nul_free a = true -> nul_free b = true ->
  Z.eqb (strcmp a b) 0 = String.eqb a b.
Proof.
  revert b. induction a as [| x a IH]; intros [| y b]; simpl; intros Ha Hb.
  - reflexivity.
  - apply andb_prop in Hb as [Hy _].
    apply Z.eqb_neq. intros H.
    assert (y = nul) by (apply code_zero; lia). subst y.
    now rewrite Ascii.eqb_refl in Hy.
  - apply andb_prop in Ha as [Hx _].
    apply Z.eqb_neq. intros H.
    assert (x = nul) by (apply code_zero; lia). subst x.
    now rewrite Ascii.eqb_refl in Hx.
  - apply andb_prop in Ha as [_ Ha]. apply andb_prop in Hb as [_ Hb].
    destruct (Ascii.eqb x y) eqn:E; [now apply IH |].
    apply Z.eqb_neq. intros H.
    assert (x = y) by (apply code_inj; lia). subst y.
    now rewrite Ascii.eqb_refl in E.
Qed.

Lemma strrchr_nul_free s c t :
  nul_free s = true -> strrchr s c = Some t -> nul_free t = true.
Proof.
  induction s as [| a s IH]; simpl; [discriminate |].
  intros H. pose proof H as H'. apply andb_prop in H' as [_ Hs].
  destruct (strrchr s c) as [u |].
  - intros [= <-]. now apply IH.
  - destruct (Ascii.eqb a c); [| discriminate].
    intros [= <-]. exact H.
Qed.

(** A name without a dot has no dotted suffix. *)
Lemma no_dot_no_suffix s :
  strrchr s "." = None -> ends_with ".so" s = false.
Proof.
  induction s as [| a s IH]; simpl; [reflexivity |].
  destruct (strrchr s ".") as [u |]; [discriminate |].
  destruct (Ascii.eqb a ".") eqn:Ea; [discriminate |]. intros _.
  now apply IH.
Qed.

(** The filter written with [strrchr] and [strcmp] accepts exactly the
    names that end in ".so". *)
Lemma passes_filter_ends_with d_name :
  nul_free d_name = true ->
  passes_filter d_name = ends_with ".so" d_name.
Proof.
  unfold passes_filter.
  induction d_name as [| a s IH]; [reflexivity |].
  intros H. pose proof H as H'. apply andb_prop in H' as [_ Hs].
  specialize (IH Hs).
  cbn [strrchr ends_with].
  destruct (strrchr s ".") as [u |] eqn:Eu.
  - rewrite IH.
    destruct (String.eqb (String a s) ".so") eqn:E; [| reflexivity].
    apply String.eqb_eq in E. injection E as -> ->. discriminate.
  - rewrite (no_dot_no_suffix s Eu).
    destruct (Ascii.eqb a ".") eqn:Ea.
    + rewrite strcmp_eqb by (exact H || reflexivity).
      destruct (String.eqb (String a s) ".so"); reflexivity.
    + simpl. rewrite Ea. reflexivity.
Qed.

End CString_facts.

(** ** [module_scan] and [init] *)

Section Discovery_facts.

Variable P : platform.
Variable W : world.

(** A scan that returns has put the module's symbol for each hook in
    front of that hook's list. *)
Lemma module_scan_hooks path m st st' :
  HAVE_LIBDL P = true ->
  dlopen W path = Some m ->
  outcome (module_scan P W path) st = Done tt st' ->
  forall X, hooks st' X = (found_for W m X ++ hooks st X)%list.
Proof.
  intros HL Ho. unfold module_scan. rewrite HL.
  intros H. apply bind_done in H as ([] & s1 & H1 & H2).
  unfold outcome, emit in H1. simpl in H1. injection H1 as <-.
  rewrite Ho in H2.
  apply bind_done in H2 as (b & s2 & H2 & H3).
  apply scan_symbols_done in H2 as (Hh & _).
  assert (s2 = st') as ->.
  { destruct (negb b); unfold outcome, emit, ret in H3; simpl in H3;
      congruence. }
  intros X. rewrite Hh, registered_all_hooks. reflexivity.
Qed.

(** Whatever a scan does, it only puts symbols in front. *)
Lemma module_scan_extends path st st' :
  outcome (module_scan P W path) st = Done tt st' ->
  forall X, exists front, hooks st' X = (front ++ hooks st X)%list.
Proof.
  intros H X.
  destruct (HAVE_LIBDL P) eqn:HL.
  - destruct (dlopen W path) as [m |] eqn:Ho.
    + exists (found_for W m X). now apply (module_scan_hooks path m).
    + unfold module_scan in H. rewrite HL in H.
      apply bind_done in H as ([] & s1 & H1 & H2).
      rewrite Ho in H2.
      unfold outcome, emit in H1, H2. simpl in H1, H2.
      exists []. simpl. congruence.
  - unfold module_scan in H. rewrite HL in H.
    unfold outcome, ret in H. simpl in H. exists []. simpl. congruence.
Qed.

Lemma scan_all_extends paths st st' :
  outcome (scan_all P W paths) st = Done tt st' ->
  forall X, exists front, hooks st' X = (front ++ hooks st X)%list.
Proof.
  revert st. induction paths as [| p paths IH]; intros st H X.
  - unfold outcome in H. simpl in H. injection H as <-. now exists [].
  - unfold scan_all in H. simpl in H.
    apply bind_done in H as ([] & s1 & H1 & H2).
    destruct (module_scan_extends _ _ _ H1 X) as [f1 E1].
    destruct (IH _ H2 X) as [f2 E2].
    exists (f2 ++ f1)%list. now rewrite E2, E1, app_assoc.
Qed.

(** A module without any recognised symbol is opened, closed again,
    and leaves the process as it was. *)
Lemma module_scan_unused path m st :
  HAVE_LIBDL P = true ->
  dlopen W path = Some m ->
  (forall X, dlsym W m (hook_names X) = None) ->
  module_scan P W path st = ([EvDlopen path; EvDlclose m], Done tt st).
Proof.
  intros HL Ho Hs. unfold module_scan. rewrite HL, Ho.
  unfold bind, emit.
  rewrite scan_symbols_none by (intros; apply Hs).
  reflexivity.
Qed.

(** Each scan hands its path to [dlopen] once, however it ends. *)
Lemma module_scan_load_attempts path st :
  HAVE_LIBDL P = true ->
  load_attempts (events (module_scan P W path) st) = [path].
Proof.
  intros HL. unfold module_scan. rewrite HL.
  unfold events, bind at 1, emit at 1.
  destruct (dlopen W path) as [m |].
  - unfold bind.
    pose proof (scan_symbols_silent W m all_hooks false st) as Hs.
    unfold events in Hs.
    destruct (scan_symbols W m all_hooks false st) as [t [b s2 | msg]];
      simpl in Hs; subst t; [| reflexivity].
    destruct (negb b); reflexivity.
  - reflexivity.
Qed.

Hypothesis memory : forall m i, new_hook_list_ok W m i = true.

Lemma scan_symbols_returns m ids found st :
  exists b st', outcome (scan_symbols W m ids found) st = Done b st'.
Proof.
  revert found st. induction ids as [| i rest IH]; intros found st.
  - now exists found, st.
  - simpl. destruct (dlsym W m (hook_names i)) as [s |]; [| apply IH].
    rewrite memory. unfold outcome, bind, prepend.
    match goal with
    | |- context [scan_symbols W m rest true ?s1] =>
        destruct (IH true s1) as (b & st' & H)
    end.
    unfold outcome in H.
    destruct (scan_symbols W m rest true _) as [t r]. simpl in *.
    eauto.
Qed.

(** With memory for the registrations, a scan returns. *)
Lemma module_scan_returns path st :
  exists st', outcome (module_scan P W path) st = Done tt st'.
Proof.
  unfold module_scan. destruct (HAVE_LIBDL P); [| now exists st].
  unfold outcome, bind at 1, emit at 1.
  destruct (dlopen W path) as [m |]; [| now exists st].
  unfold bind.
  destruct (scan_symbols_returns m all_hooks false st) as (b & s2 & H).
  unfold outcome in H.
  destruct (scan_symbols W m all_hooks false st) as [t r]. simpl in H.
  subst r. destruct (negb b); simpl; eauto.
Qed.

Lemma init_entry_returns module_path d_name st :
  exists st', outcome (init_entry P W module_path d_name) st = Done tt st'.
Proof.
  unfold init_entry.
  destruct (match CString.strrchr d_name "." with
            | Some e => _ | None => _ end); [now exists st |].
  destruct (negb _); [now exists st |].
  apply module_scan_returns.
Qed.

Lemma for_each_init_entry_returns module_path entries st :
  exists st',
    outcome (for_each entries (init_entry P W module_path)) st = Done tt st'.
Proof.
  revert st. induction entries as [| d rest IH]; intros st.
  - now exists st.
  - simpl. destruct (init_entry_returns module_path d st) as [s1 H1].
    destruct (IH s1) as [s2 H2]. exists s2.
    now rewrite (proj2 (bind_events_done _ _ _ _ _ H1)).
Qed.

(** The paths [init] hands to [dlopen]: one per entry that passes the
    filter, in directory order. *)
Lemma for_each_init_entry_load_attempts module_path entries st :
  HAVE_LIBDL P = true ->
  (forall d, In d entries -> asprintf_ok W module_path d = true) ->
  load_attempts
    (events (for_each entries (init_entry P W module_path)) st) =
  map (fun d => module_path ++ "/" ++ d) (filter passes_filter entries).
Proof.
  intros HL. revert st.
  induction entries as [| d rest IH]; intros st Hp; [reflexivity |].
  simpl for_each.
  destruct (init_entry_returns module_path d st) as [s1 H1].
  rewrite (proj1 (bind_events_done _ _ _ _ _ H1)), load_attempts_app.
  rewrite IH by (intros; apply Hp; now right).
  simpl filter. unfold init_entry, passes_filter in *.
  destruct (CString.strrchr d ".") as [e |]; [| reflexivity].
  destruct (Z.eqb (CString.strcmp e ".so") 0); [| reflexivity].
  cbn [negb]. rewrite Hp by now left. cbn [negb].
  now rewrite module_scan_load_attempts.
Qed.

End Discovery_facts.

(** ** Single-precision rounding

    How far [Float32.of_int] and [Float32.mul] can be from the exact
    result, from the definitions of [SpecFloat]. *)

Module Float32_facts.
Import Float32.
Local Open Scope Z_scope.

Lemma digits2_pos_spec p :
  2 ^ (Zpos (digits2_pos p) - 1) <= Zpos p < 2 ^ Zpos (digits2_pos p).
Proof.
  induction p as [p IH | p IH |]; simpl digits2_pos.
  - rewrite Pos2Z.inj_succ. replace (Z.succ (Zpos (digits2_pos p)) - 1) with (Z.succ (Zpos (digits2_pos p) - 1)) by lia.
    rewrite !Z.pow_succ_r by lia. lia.
  - rewrite Pos2Z.inj_succ. replace (Z.succ (Zpos (digits2_pos p)) - 1) with (Z.succ (Zpos (digits2_pos p) - 1)) by lia.
    rewrite !Z.pow_succ_r by lia. lia.
  - simpl. lia.
Qed.

Lemma digits2_pos_unique p d :
  2 ^ (d - 1) <= Zpos p < 2 ^ d -> 0 < d -> Zpos (digits2_pos p) = d.
Proof.
  intros [H1 H2] Hd.
  pose proof (digits2_pos_spec p) as [G1 G2].
  set (k := Zpos (digits2_pos p)) in *.
  assert (0 < k) by (subst k; lia).
  destruct (Z.lt_trichotomy k d) as [L | [E | L]]; [| exact E |].
  - assert (2 ^ k <= 2 ^ (d - 1)) by (apply Z.pow_le_mono_r; lia). lia.
  - assert (2 ^ d <= 2 ^ (k - 1)) by (apply Z.pow_le_mono_r; lia). lia.
Qed.

Lemma shr_1_shifted X k mrs : 0 <= k -> shifted X k mrs -> shifted X (k + 1) (shr_1 mrs).
Proof.
  intros Hk (Hm & rho & HX & Hrho & Hr & Hs).
  destruct mrs as [m r s]. unfold shifted. cbn [shr_m shr_r shr_s] in *.
  rewrite Z.pow_add_r, Z.pow_1_r by lia.
  assert (0 < 2 ^ k) by (apply Z.pow_pos_nonneg; lia).
  assert (Hrs : orb r s = true <-> rho <> 0).
  { rewrite orb_true_iff, Hr, Hs. lia. }
  destruct m as [| [p | p |] | p]; cbn [shr_1 shr_m shr_r shr_s]; try lia.
  - split; [lia |]. exists rho. rewrite Hrs. repeat split; try lia; try discriminate.
  - split; [lia |]. exists (2 ^ k + rho).
    rewrite Hrs. repeat split; try lia.
  - split; [lia |]. exists rho. rewrite Hrs. repeat split; try lia; try discriminate.
  - split; [lia |]. exists (2 ^ k + rho). rewrite Hrs. repeat split; try lia.
Qed.

Lemma iter_pos_shifted X n : forall k mrs,
  0 <= k -> shifted X k mrs -> shifted X (k + Zpos n) (SpecFloat.iter_pos shr_1 n mrs).
Proof.
  induction n as [n IH | n IH |]; intros k mrs Hk H; simpl.
  - apply (shr_1_shifted X k) in H; [| lia].
    apply (IH (k + 1)) in H; [| lia].
    apply (IH (k + 1 + Zpos n)) in H; [| lia].
    replace (k + Zpos n~1) with (k + 1 + Zpos n + Zpos n) by lia. exact H.
  - apply (IH k) in H; [| lia].
    apply (IH (k + Zpos n)) in H; [| lia].
    replace (k + Zpos n~0) with (k + Zpos n + Zpos n) by lia. exact H.
  - now apply shr_1_shifted.
Qed.

Lemma shifted_start P : 0 <= P -> shifted P 0 (Build_shr_record P false false).
Proof.
  intros H. split; [exact H |]. exists 0. cbn [shr_m shr_r shr_s].
  rewrite Z.pow_0_r. repeat split; try lia; try discriminate.
Qed.

Lemma rne_spec X k mrs :
  0 <= k -> shifted X k mrs ->
  let M := round_nearest_even (shr_m mrs) (loc_of_shr_record mrs) in
  shr_m mrs <= M <= shr_m mrs + 1 /\ 2 * Z.abs (M * 2 ^ k - X) <= 2 ^ k.
Proof.
  intros Hk (Hm & rho & HX & Hrho & Hr & Hs).
  destruct mrs as [m r s]. cbn [shr_m shr_r shr_s] in *.
  assert (0 < 2 ^ k) by (apply Z.pow_pos_nonneg; lia).
  assert (Hr' : if r then 2 ^ k <= 2 * rho else 2 * rho < 2 ^ k).
  { destruct r; [now apply Hr |].
    destruct (Z.lt_ge_cases (2 * rho) (2 ^ k)) as [L | G]; [exact L |].
    apply Hr in G. discriminate. }
  assert (Hs' : if s then 2 * rho <> 0 /\ 2 * rho <> 2 ^ k
                else 2 * rho = 0 \/ 2 * rho = 2 ^ k).
  { destruct s; [now apply Hs |].
    destruct (Z.eq_dec (2 * rho) 0) as [E | N]; [now left |].
    destruct (Z.eq_dec (2 * rho) (2 ^ k)) as [E | N']; [now right |].
    assert (false = true) by (apply Hs; split; assumption). discriminate. }
  clear Hr Hs. subst X.
  destruct r, s; cbn [loc_of_shr_record round_nearest_even].
  - split; lia.
  - destruct (Z.even m); split; lia.
  - split; lia.
  - split; lia.
Qed.

Lemma shr_fexp_canonical M e :
  2 ^ 23 <= M < 2 ^ 24 -> -149 <= e ->
  shr_fexp 24 128 M e loc_Exact = (Build_shr_record M false false, e).
Proof.
  intros HM He. unfold shr_fexp, fexp, emin.
  destruct M as [| q | q]; try (cbn in HM; lia).
  cbn [Zdigits2 shr_record_of_loc].
  rewrite (digits2_pos_unique q 24) by (cbn; lia).
  replace (Z.max (24 + e - 24) (3 - 128 - 24) - e) with 0 by lia.
  reflexivity.
Qed.

Lemma shr_fexp_carry e :
  -149 <= e ->
  shr_fexp 24 128 (2 ^ 24) e loc_Exact =
  (Build_shr_record (2 ^ 23) false false, e + 1).
Proof.
  intros He. unfold shr_fexp, fexp, emin.
  change (Zdigits2 (2 ^ 24)) with 25.
  replace (Z.max (25 + e - 24) (3 - 128 - 24) - e) with 1 by lia.
  reflexivity.
Qed.

Lemma round_aux_spec s P e :
  let d := Zpos (digits2_pos P) in
  24 <= d -> -149 <= d + e - 24 -> d + e <= 127 ->
  exists m e',
    binary_round_aux 24 128 s (Zpos P) e loc_Exact = S754_finite s m e' /\
    e + d - 24 <= e' <= e + d - 23 /\
    2 ^ 23 <= Zpos m < 2 ^ 24 /\
    2 * Z.abs (Zpos m * 2 ^ (e' - e) - Zpos P) <= 2 ^ (d - 24).
Proof.
  intros d Hd Hlo Hhi.
  pose proof (digits2_pos_spec P) as HP. fold d in HP.
  unfold binary_round_aux.
  assert (Hfirst :
    exists mrs, shr_fexp 24 128 (Zpos P) e loc_Exact = (mrs, e + (d - 24)) /\
                shifted (Zpos P) (d - 24) mrs).
  { unfold shr_fexp, fexp, emin. cbn [Zdigits2 shr_record_of_loc]. fold d.
    replace (Z.max (d + e - 24) (3 - 128 - 24) - e) with (d - 24) by lia.
    destruct (d - 24) as [| p | p] eqn:En; try lia.
    - eexists. split; [cbn [shr]; f_equal; lia |]. apply shifted_start. lia.
    - eexists. split; [reflexivity |].
      apply (iter_pos_shifted (Zpos P) p 0); [lia |]. apply shifted_start. lia. }
  destruct Hfirst as (mrs & -> & Hshifted).
  assert (Hn : 0 <= d - 24) by lia.
  destruct (rne_spec _ _ _ Hn Hshifted) as [HM Herr].
  set (M := round_nearest_even (shr_m mrs) (loc_of_shr_record mrs)) in *.
  destruct Hshifted as (Hm0 & rho & HX & Hrho & _).
  set (n := d - 24) in *.
  assert (Ht : 0 < 2 ^ n) by (apply Z.pow_pos_nonneg; lia).
  assert (E1 : 2 ^ d = 2 ^ 24 * 2 ^ n).
  { rewrite <- Z.pow_add_r by lia. f_equal. lia. }
  assert (E2 : 2 ^ (d - 1) = 2 ^ 23 * 2 ^ n).
  { rewrite <- Z.pow_add_r by lia. f_equal. lia. }
  rewrite E1, E2 in HP.
  assert (Hm : 2 ^ 23 <= shr_m mrs < 2 ^ 24) by nia.
  destruct (Z.eq_dec M (2 ^ 24)) as [EM | NM].
  - rewrite EM, shr_fexp_carry by lia.
    cbn [shr_m].
    change (2 ^ 23) with (Zpos 8388608).
    replace (e + n + 1 <=? 128 - 24) with true by (symmetry; apply Z.leb_le; lia).
    exists 8388608%positive, (e + n + 1).
    split; [reflexivity |]. split; [lia |]. split; [cbn; lia |].
    replace (e + n + 1 - e) with (n + 1) by lia.
    rewrite Z.pow_add_r, Z.pow_1_r by lia.
    rewrite EM in Herr. change (2 ^ 24) with 16777216 in Herr. lia.
  - rewrite shr_fexp_canonical by lia.
    cbn [shr_m].
    destruct M as [| q | q] eqn:EqM; try lia.
    replace (e + n <=? 128 - 24) with true by (symmetry; apply Z.leb_le; lia).
    exists q, (e + n).
    split; [reflexivity |]. split; [lia |]. split; [lia |].
    replace (e + n - e) with n by lia. exact Herr.
Qed.


Lemma two_pow_pos e : (0 < (2 # 1) ^ e)%Q.
Proof. apply Qpower_0_lt. reflexivity. Qed.

Lemma val_shift m k e : 0 <= k -> (val (m * 2 ^ k) e == val m (k + e))%Q.
Proof.
  intros Hk. unfold val.
  rewrite inject_Z_mult, Zpower_Qpower by exact Hk.
  rewrite Qpower_plus by discriminate.
  change (inject_Z 2) with (2 # 1)%Q. ring.
Qed.

(** Rounding a positive number of at least 24 digits loses at most
    2^-24 of it. *)
Lemma round_aux_Q s P e :
  let d := Zpos (digits2_pos P) in
  24 <= d -> -149 <= d + e - 24 -> d + e <= 127 ->
  exists m e',
    binary_round_aux 24 128 s (Zpos P) e loc_Exact = S754_finite s m e' /\
    2 ^ 23 <= Zpos m < 2 ^ 24 /\
    e + d - 24 <= e' <= e + d - 23 /\
    (Qabs (val (Zpos m) e' - val (Zpos P) e)
     <= val (Zpos P) e * (1 # 2 ^ 24))%Q.
Proof.
  intros d Hd Hlo Hhi.
  destruct (round_aux_spec s P e Hd Hlo Hhi)
    as (m & e' & Hrun & He & Hm & Herr).
  fold d in Herr.
  exists m, e'. split; [exact Hrun |]. split; [exact Hm |].
  split; [exact He |].
  pose proof (digits2_pos_spec P) as [HP _]. fold d in HP.
  assert (HZ : Z.abs (Zpos m * 2 ^ (e' - e) - Zpos P) * 2 ^ 24 <= Zpos P).
  { assert (E : 2 ^ (d - 1) * 2 ^ 25 = 2 ^ (d - 24) * 2 ^ 48).
    { rewrite <- !Z.pow_add_r by lia. f_equal. lia. }
    change (2 ^ 25) with 33554432 in E.
    change (2 ^ 48) with 281474976710656 in E.
    change (2 ^ 24) with 16777216. lia. }
  replace e' with ((e' - e) + e) at 1 by lia.
  rewrite <- val_shift by lia.
  set (D := Zpos m * 2 ^ (e' - e) - Zpos P) in *.
  unfold val.
  setoid_replace (inject_Z (Zpos m * 2 ^ (e' - e)) * (2 # 1) ^ e
                  - inject_Z (Zpos P) * (2 # 1) ^ e)%Q
    with (inject_Z D * (2 # 1) ^ e)%Q
    by (unfold D, Z.sub; rewrite inject_Z_plus, inject_Z_opp; ring).
  rewrite Qabs_Qmult, (Qabs_pos ((2 # 1) ^ e))
    by (apply Qlt_le_weak, two_pow_pos).
  setoid_replace (inject_Z (Zpos P) * (2 # 1) ^ e * (1 # 2 ^ 24))%Q
    with (inject_Z (Zpos P) * (1 # 2 ^ 24) * (2 # 1) ^ e)%Q by ring.
  apply Qmult_le_compat_r; [| apply Qlt_le_weak, two_pow_pos].
  change (Qabs (inject_Z D)) with (inject_Z (Z.abs D)).
  rewrite Zle_Qle, inject_Z_mult in HZ.
  change (inject_Z (2 ^ 24)) with (16777216 # 1)%Q in HZ.
  change (1 # 2 ^ 24)%Q with (1 # 16777216)%Q.
  lra.
Qed.

Lemma iter_xO_spec A p : Zpos (Pos.iter xO A p) = Zpos A * 2 ^ Zpos p.
Proof.
  induction p as [| p IH] using Pos.peano_ind.
  - simpl. lia.
  - rewrite Pos.iter_succ, Pos2Z.inj_xO, IH, Pos2Z.inj_succ,
      Z.pow_succ_r by lia.
    ring.
Qed.

Lemma digits2_pos_le A k :
  0 <= k -> Zpos A <= 2 ^ k -> Zpos (digits2_pos A) <= k + 1.
Proof.
  intros Hk HA.
  pose proof (digits2_pos_spec A) as [H1 _].
  destruct (Z.le_gt_cases (Zpos (digits2_pos A)) (k + 1)) as [L | G];
    [exact L |].
  assert (2 ^ (k + 1) <= 2 ^ (Zpos (digits2_pos A) - 1))
    by (apply Z.pow_le_mono_r; lia).
  rewrite Z.pow_add_r, Z.pow_1_r in H by lia.
  assert (0 < 2 ^ k) by (apply Z.pow_pos_nonneg; lia). lia.
Qed.

Lemma digits2_pos_ge A k :
  0 <= k -> 2 ^ k <= Zpos A -> k + 1 <= Zpos (digits2_pos A).
Proof.
  intros Hk HA.
  pose proof (digits2_pos_spec A) as [_ H2].
  destruct (Z.le_gt_cases (k + 1) (Zpos (digits2_pos A))) as [L | G];
    [exact L |].
  assert (2 ^ Zpos (digits2_pos A) <= 2 ^ k)
    by (apply Z.pow_le_mono_r; lia).
  lia.
Qed.

Lemma of_int_Q s A :
  Zpos A <= 2 ^ 31 ->
  exists m e,
    binary_round 24 128 s A 0 = S754_finite s m e /\
    2 ^ 23 <= Zpos m < 2 ^ 24 /\
    -23 <= e <= 9 /\
    (Qabs (val (Zpos m) e - inject_Z (Zpos A))
     <= inject_Z (Zpos A) * (1 # 2 ^ 24))%Q.
Proof.
  intros HA.
  pose proof (digits2_pos_spec A) as HdA.
  pose proof (digits2_pos_le A 31 ltac:(lia) HA) as Hd32.
  set (d := Zpos (digits2_pos A)) in *.
  assert (Hd1 : 1 <= d) by (subst d; lia).
  assert (HvA : (val (Zpos A) 0 == inject_Z (Zpos A))%Q)
    by (unfold val; simpl; ring).
  unfold binary_round, fexp, emin. fold d.
  replace (Z.max (d + 0 - 24) (3 - 128 - 24)) with (d - 24) by lia.
  unfold shl_align.
  destruct (d - 24 - 0) as [| p | p] eqn:En.
  - destruct (round_aux_Q s A 0) as (m & e & Hrun & Hm & He & Herr);
      fold d; try lia.
    exists m, e. fold d in He. rewrite HvA in Herr. repeat split; try lia; assumption.
  - destruct (round_aux_Q s A 0) as (m & e & Hrun & Hm & He & Herr);
      fold d; try lia.
    exists m, e. fold d in He. rewrite HvA in Herr. repeat split; try lia; assumption.
  - assert (Hz : Zpos (Pos.iter xO A p) = Zpos A * 2 ^ (24 - d)).
    { rewrite iter_xO_spec. f_equal. f_equal. lia. }
    assert (E1 : 2 ^ (d - 1) * 2 ^ (24 - d) = 2 ^ 23).
    { rewrite <- Z.pow_add_r by lia. f_equal. lia. }
    assert (E2 : 2 ^ d * 2 ^ (24 - d) = 2 ^ 24).
    { rewrite <- Z.pow_add_r by lia. f_equal. lia. }
    assert (Ht : 0 < 2 ^ (24 - d)) by (apply Z.pow_pos_nonneg; lia).
    assert (Hdz : Zpos (digits2_pos (Pos.iter xO A p)) = 24).
    { apply digits2_pos_unique; [| lia]. rewrite Hz.
      change (2 ^ (24 - 1)) with (2 ^ 23). nia. }
    destruct (round_aux_Q s (Pos.iter xO A p) (d - 24))
      as (m & e & Hrun & Hm & He & Herr); rewrite ?Hdz; try lia.
    rewrite Hdz in He.
    exists m, e. split; [exact Hrun |]. split; [exact Hm |].
    split; [lia |].
    assert (Hv : (val (Zpos (Pos.iter xO A p)) (d - 24)
                  == inject_Z (Zpos A))%Q).
    { rewrite Hz, val_shift by lia.
      replace (24 - d + (d - 24)) with 0 by lia. exact HvA. }
    rewrite Hv in Herr. exact Herr.
Qed.

Lemma val_mul a b e1 e2 : (val (a * b) (e1 + e2) == val a e1 * val b e2)%Q.
Proof.
  unfold val. rewrite inject_Z_mult, Qpower_plus by discriminate. ring.
Qed.

Lemma val_opp m e : (val (- m) e == - val m e)%Q.
Proof. unfold val. rewrite inject_Z_opp. ring. Qed.

(** The product with 0.01f of a positive centimetre count. *)
Lemma mul_0_01f_Q s A :
  Zpos A <= 2 ^ 31 ->
  exists m e,
    mul (binary_round 24 128 s A 0) lit_0_01f = S754_finite s m e /\
    (Qabs (val (Zpos m) e - inject_Z (Zpos A) * (1 # 100))
     <= inject_Z (Zpos A) * (1 # 100) * (1 # 2 ^ 22))%Q.
Proof.
  intros HA.
  destruct (of_int_Q s A HA) as (mx & ex & -> & Hmx & Hex & Hconv).
  unfold mul, lit_0_01f. cbn [SFmul]. rewrite xorb_false_r.
  set (P := (mx * 10737418)%positive).
  assert (HP : 2 ^ 46 <= Zpos P < 2 ^ 48).
  { unfold P. rewrite Pos2Z.inj_mul.
    change (2 ^ 23) with 8388608 in Hmx. change (2 ^ 24) with 16777216 in Hmx.
    change (2 ^ 46) with 70368744177664.
    change (2 ^ 48) with 281474976710656. lia. }
  pose proof (digits2_pos_ge P 46 ltac:(lia) (proj1 HP)) as Hd1.
  pose proof (digits2_pos_le P 48 ltac:(lia) ltac:(lia)) as Hd2.
  assert (Hd3 : Zpos (digits2_pos P) <= 48).
  { destruct (Z.eq_dec (Zpos (digits2_pos P)) 49) as [E | N]; [| lia].
    pose proof (digits2_pos_spec P) as [H _]. rewrite E in H.
    change (2 ^ (49 - 1)) with (2 ^ 48) in H. lia. }
  destruct (round_aux_Q s P (ex + -30)) as (m & e & Hrun & Hm & He & Herr);
    try lia.
  exists m, e. split; [exact Hrun |].
  unfold P in Herr. rewrite Pos2Z.inj_mul, val_mul in Herr.
  set (V := val (Zpos mx) ex) in *.
  set (R := val (Zpos m) e) in *.
  set (a := inject_Z (Zpos A)) in *.
  assert (Ha : (0 < a)%Q).
  { unfold a. change 0%Q with (inject_Z 0). rewrite <- Zlt_Qlt. lia. }
  setoid_replace (val 10737418 (-30)) with (10737418 # 1073741824)%Q
    in Herr by reflexivity.
  change (1 # 2 ^ 24)%Q with (1 # 16777216)%Q in *.
  change (1 # 2 ^ 22)%Q with (1 # 4194304)%Q.
  apply Qabs_Qle_condition in Hconv, Herr.
  apply Qabs_Qle_condition.
  lra.
Qed.

(** For every 32-bit centimetre count, the product with 0.01f is within
    a relative 2^-22 of the count divided by 100. *)
Lemma mul_0_01f_error cm :
  -2 ^ 31 <= cm < 2 ^ 31 ->
  is_about_cm_over_100 (mul (of_int cm) lit_0_01f) cm.
Proof.
  intros Hrange. unfold is_about_cm_over_100.
  assert (Hcm : forall A, (Zpos A # 100 == inject_Z (Zpos A) * (1 # 100))%Q).
  { intros A. unfold Qeq. simpl. lia. }
  destruct cm as [| A | A].
  - exists (0 # 1)%Q. split; [reflexivity |]. discriminate.
  - destruct (mul_0_01f_Q false A) as (m & e & Hrun & Herr); [lia |].
    unfold of_int, binary_normalize, prec, emax. rewrite Hrun.
    eexists. split; [reflexivity |].
    change (Qabs (Zpos A # 100)) with (Zpos A # 100)%Q.
    rewrite Hcm. exact Herr.
  - destruct (mul_0_01f_Q true A) as (m & e & Hrun & Herr); [lia |].
    unfold of_int, binary_normalize, prec, emax. rewrite Hrun.
    eexists. split; [reflexivity |].
    change (Qabs (Zneg A # 100)) with (Zpos A # 100)%Q.
    change (Zneg A # 100)%Q with (- (Zpos A # 100))%Q.
    change (Zneg m) with (- Zpos m). rewrite val_opp, Hcm.
    setoid_replace (- val (Zpos m) e - - (inject_Z (Zpos A) * (1 # 100)))%Q
      with (- (val (Zpos m) e - inject_Z (Zpos A) * (1 # 100)))%Q by ring.
    rewrite Qabs_opp. exact Herr.
Qed.

End Float32_facts.

(** ** Discovery does not fail *)

Lemma for_each_app {A} (l1 l2 : list A) (body : A -> M unit) s :
  for_each (l1 ++ l2) body s =
  (for_each l1 body ;; for_each l2 body) s.
Proof.
  revert s. induction l1 as [| x l1 IH]; intros s; simpl.
  - unfold bind, ret. now destruct (for_each l2 body s).
  - unfold bind.
    destruct (body x s) as [t1 [[] s1 | msg]]; [| reflexivity].
    rewrite IH. unfold bind.
    destruct (for_each l1 body s1) as [t2 [[] s2 | msg]]; [| reflexivity].
    destruct (for_each l2 body s2) as [t3 r].
    now rewrite app_assoc.
Qed.

(** An entry whose path cannot be built is passed over. *)
Lemma init_entry_no_path P W module_path d_name s :
  asprintf_ok W module_path d_name = false ->
  init_entry P W module_path d_name s = ([], Done tt s).
Proof.
  intros H. unfold init_entry. rewrite H.
  now destruct (match CString.strrchr d_name "." with
                | Some e => _ | None => _ end).
Qed.

Lemma for_each_skip P W module_path before d_name after s :
  asprintf_ok W module_path d_name = false ->
  for_each (before ++ d_name :: after) (init_entry P W module_path) s =
  for_each (before ++ after) (init_entry P W module_path) s.
Proof.
  intros H. rewrite !for_each_app. unfold bind.
  destruct (for_each before _ s) as [t1 [[] s1 | msg]]; [| reflexivity].
  simpl for_each. unfold bind.
  rewrite init_entry_no_path by exact H.
  now destruct (for_each after _ s1).
Qed.

(** The listing of a directory is all a scan takes from [opendir]. *)
Lemma for_each_init_entry_listing P W dir l module_path entries s :
  for_each entries (init_entry P (with_listing W dir l) module_path) s =
  for_each entries (init_entry P W module_path) s.
Proof.
  revert s. induction entries as [| d rest IH]; intros s; [reflexivity |].
  simpl. unfold bind.
  change (init_entry P (with_listing W dir l) module_path d s)
    with (init_entry P W module_path d s).
  destruct (init_entry P W module_path d s) as [t [[] s1 | msg]];
    [| reflexivity].
  now rewrite IH.
Qed.

Lemma scan_symbols_panic W m ids found s msg :
  outcome (scan_symbols W m ids found) s = Panic msg -> allocation_panic msg.
Proof.
  revert found s. induction ids as [| i rest IH]; intros found s.
  - discriminate.
  - simpl. destruct (dlsym W m (hook_names i)) as [sym |]; [| apply IH].
    destruct (new_hook_list_ok W m i).
    + unfold outcome, bind, prepend.
      match goal with
      | |- context [scan_symbols W m rest true ?s1] =>
          specialize (IH true s1)
      end.
      unfold outcome in IH.
      destruct (scan_symbols W m rest true _) as [t r]. exact IH.
    + unfold outcome, panic. simpl. intros [= <-]. now exists i.
Qed.

Lemma module_scan_panic P W path s msg :
  outcome (module_scan P W path) s = Panic msg -> allocation_panic msg.
Proof.
  unfold module_scan. destruct (HAVE_LIBDL P); [| discriminate].
  unfold outcome, bind at 1, emit at 1.
  destruct (dlopen W path) as [m |]; [| discriminate].
  unfold bind.
  pose proof (scan_symbols_panic W m all_hooks false s) as H.
  unfold outcome in H.
  destruct (scan_symbols W m all_hooks false s) as [t [b s2 | msg']].
  - destruct (negb b); discriminate.
  - simpl. intros [= <-]. now apply H.
Qed.

Lemma for_each_init_entry_panic P W module_path entries s msg :
  outcome (for_each entries (init_entry P W module_path)) s = Panic msg ->
  allocation_panic msg.
Proof.
  revert s. induction entries as [| d rest IH]; intros s.
  - discriminate.
  - simpl. unfold outcome, bind.
    destruct (init_entry P W module_path d s) as [t [[] s1 | msg']] eqn:E.
    + specialize (IH s1). unfold outcome in IH.
      destruct (for_each rest _ s1) as [t2 r]. exact IH.
    + simpl. intros [= <-]. unfold init_entry in E.
      destruct (match CString.strrchr d "." with
                | Some e => _ | None => _ end); [discriminate |].
      destruct (negb _); [discriminate |].
      apply (module_scan_panic P W (module_path ++ "/" ++ d) s).
      unfold outcome. now rewrite E.
Qed.

(** [init] on a directory that opens is the scan of the entries it
    keeps. *)
Lemma init_scan_all P W module_path entries st :
  opendir W module_path = Some entries ->
  init P W module_path st = scan_all P W (kept W module_path entries) st.
Proof.
  intros Ho. unfold init. rewrite Ho. unfold kept, scan_all. clear Ho.
  revert st. induction entries as [| d rest IH]; intros st; [reflexivity |].
  simpl for_each. simpl filter.
  unfold init_entry at 1, passes_filter at 1.
  destruct (CString.strrchr d ".") as [e |]; cbn [andb].
  - destruct (Z.eqb (CString.strcmp e ".so") 0); cbn [negb andb].
    + destruct (asprintf_ok W module_path d); cbn [negb].
      * simpl map. simpl for_each. unfold bind.
        destruct (module_scan P W _ st) as [t [[] s1 | msg]];
          [| reflexivity].
        now rewrite IH.
      * unfold bind, ret. rewrite IH. now destruct (for_each _ _ st).
    + unfold bind, ret. rewrite IH. now destruct (for_each _ _ st).
  - unfold bind, ret. rewrite IH. now destruct (for_each _ _ st).
Qed.

(** An entry whose path cannot be built is not among the kept ones. *)
Lemma kept_skip W module_path before d_name after :
  asprintf_ok W module_path d_name = false ->
  kept W module_path (before ++ d_name :: after) =
  kept W module_path (before ++ after).
Proof.
  intros H. unfold kept. rewrite !filter_app. simpl filter.
  now rewrite H, andb_false_r.
Qed.

(** With libdl and memory for the registrations, a sequence of scans
    hands every one of its paths to [dlopen], in order. *)
Lemma scan_all_load_attempts P W paths st :
  HAVE_LIBDL P = true ->
  (forall m i, new_hook_list_ok W m i = true) ->
  load_attempts (events (scan_all P W paths) st) = paths.
Proof.
  intros HL Hm. revert st.
  induction paths as [| p paths IH]; intros st; [reflexivity |].
  unfold scan_all. simpl for_each.
  destruct (module_scan_returns P W Hm p st) as [s1 H1].
  rewrite (proj1 (bind_events_done _ _ _ _ _ H1)), load_attempts_app.
  rewrite module_scan_load_attempts by exact HL.
  simpl. f_equal. apply IH.
Qed.

Lemma Permutation_filter {A} (f : A -> bool) l l' :
  Permutation l l' -> Permutation (filter f l) (filter f l').
Proof.
  induction 1 as [| x l l' _ IH | x y l | l l' l'' _ IH1 _ IH2]; simpl.
  - constructor.
  - destruct (f x); [now constructor | exact IH].
  - destruct (f x), (f y); try apply Permutation_refl.
    apply perm_swap.
  - now apply Permutation_trans with (filter f l').
Qed.

(** ** The demo installation *)

(** The Demo registry holds B's and A's AHRS entry points, B's first. *)
Example demo_two_modules :
  hooks Demo.two_modules HOOK_AHRS_UPDATE = [51; 35] /\
  hooks Demo.two_modules HOOK_SETUP_START = [33] /\
  hooks Demo.two_modules HOOK_SETUP_COMPLETE = [].
Proof. repeat split. Qed.

(** The three lanes of the earth-frame acceleration are all filled from
    lane 0 of the source, whatever the source holds. *)
Lemma accel_ef_filled_from_lane_0 P W ahrs st snap :
  In snap (AHRS_snapshots (events (call_hook_AHRS_update P W ahrs) st)) ->
  forall i, (i < 3)%nat ->
    array_get (accel_ef snap) i = Vector3f_at (get_accel_ef ahrs) 0.
Proof.
  intros Hin. apply AHRS_snapshot_inv in Hin as [reads Hc].
  destruct (construct_AHRS_state_spec P W ahrs st)
    as (reads' & snap' & Hc' & _ & _ & _ & _ & _ & _ & Ha).
  rewrite Hc in Hc'. injection Hc' as _ <-.
  rewrite Ha. intros [| [| [| i]]] Hi; try reflexivity. lia.
Qed.

(** * The claims *)

(** C1. With a non-empty AHRS hook list, the snapshot's earth-frame
    acceleration should equal the source's vector lane by lane.  Run on
    a source whose earth-frame acceleration is (1, 2, 3), with two
    modules registered: both entry points receive (1, 1, 1); lanes 1 and
    2 differ from the source's. *)
Theorem C1_accel_ef_lanes_on_1_2_3 :
  let ahrs := Demo.source Float32.zero None (Demo.vec 1 2 3) in
  let snaps :=
    AHRS_snapshots
      (events (call_hook_AHRS_update Demo.P Demo.W ahrs) Demo.two_modules) in
  List.length snaps = 2%nat /\
  Forall (fun snap =>
            accel_ef snap =
              [Float32.of_int 1; Float32.of_int 1; Float32.of_int 1] /\
            array_get (accel_ef snap) 0 = Vector3f_at (get_accel_ef ahrs) 0 /\
            array_get (accel_ef snap) 1 <> Vector3f_at (get_accel_ef ahrs) 1 /\
            array_get (accel_ef snap) 2 <> Vector3f_at (get_accel_ef ahrs) 2)
         snaps.
Proof.
  cbv zeta. split; [reflexivity |].
  repeat constructor; vm_compute; discriminate.
Qed.

(** C2. For every hook X: when module A is scanned, later module B is
    scanned (other modules may be scanned in between and afterwards),
    and both export the symbol of X, then a dispatch of X calls B's
    entry point before A's; behind A's come the entry points that were
    registered before A was scanned. *)
Theorem C2_dispatch_most_recent_first
    P W X pathA pathB mA mB sA sB between later st0 st req :
  HAVE_LIBDL P = true ->
  dlopen W pathA = Some mA -> dlsym W mA (hook_names X) = Some sA ->
  dlopen W pathB = Some mB -> dlsym W mB (hook_names X) = Some sB ->
  outcome (module_scan P W pathA ;; scan_all P W between ;;
           module_scan P W pathB ;; scan_all P W later) st0 = Done tt st ->
  hook_of req = X ->
  exists l1 l2,
    invoked (events (dispatch P W req) st) =
    (l1 ++ sB :: l2 ++ sA :: hooks st0 X)%list.
Proof.
  intros HL HoA HsA HoB HsB Hrun Hreq.
  apply bind_done in Hrun as ([] & stA & HA & Hrun).
  apply bind_done in Hrun as ([] & stA' & Hbetween & Hrun).
  apply bind_done in Hrun as ([] & stB & HB & Hlater).
  pose proof (module_scan_hooks P W pathA mA st0 stA HL HoA HA X) as EA.
  pose proof (module_scan_hooks P W pathB mB stA' stB HL HoB HB X) as EB.
  unfold found_for in EA, EB. rewrite HsA in EA. rewrite HsB in EB.
  destruct (scan_all_extends P W between stA stA' Hbetween X) as [l2 E2].
  destruct (scan_all_extends P W later stB st Hlater X) as [l1 E1].
  destruct (dispatch_run P W req st) as (t & n & Hd & Hinv & _).
  exists l1, l2. unfold events. rewrite Hd. simpl fst.
  rewrite Hinv, Hreq, E1, EB, E2, EA. reflexivity.
Qed.

Lemma C2_dispatch_most_recent_first_witness :
  exists l1 l2,
    invoked (events (dispatch Demo.P Demo.W
                       (AHRSUpdate (Demo.source Float32.zero None
                                      (Demo.vec 0 0 0))))
                    Demo.two_modules) =
    (l1 ++ 51 :: l2 ++ 35 :: hooks boot HOOK_AHRS_UPDATE)%list.
Proof.
  apply (C2_dispatch_most_recent_first Demo.P Demo.W HOOK_AHRS_UPDATE
           "/two/A.so" "/two/B.so" 32 48 35 51 [] [] boot);
    reflexivity.
Defined.

(** C3. When the AHRS-update list is empty, [call_hook_AHRS_update]
    returns at once: it emits no event at all (no call into a module, no
    read of any accessor of the navigation source) and leaves the
    process as it was (the clock is not read, no snapshot is built). *)
Theorem C3_AHRS_update_empty_list P W ahrs st :
  hooks st HOOK_AHRS_UPDATE = [] ->
  call_hook_AHRS_update P W ahrs st = ([], Done tt st).
Proof. apply call_hook_AHRS_update_empty. Qed.

Lemma C3_AHRS_update_empty_list_witness :
  call_hook_AHRS_update Demo.P Demo.W
    (Demo.source Float32.zero None (Demo.vec 1 2 3)) boot =
  ([], Done tt boot).
Proof.
  apply (C3_AHRS_update_empty_list Demo.P Demo.W). reflexivity.
Defined.

(** C4. A module that loads but resolves none of the five symbol names
    is closed again before [module_scan] returns, and the process is
    left exactly as it was; hence whatever is scanned and dispatched
    afterwards runs as if that module had never been scanned: no
    dispatch calls anything on its account. *)
Theorem C4_module_without_hooks_is_unloaded P W path m st :
  HAVE_LIBDL P = true ->
  dlopen W path = Some m ->
  (forall X, dlsym W m (hook_names X) = None) ->
  module_scan P W path st = ([EvDlopen path; EvDlclose m], Done tt st) /\
  forall later req,
    events (module_scan P W path ;; scan_all P W later ;; dispatch P W req) st
    = EvDlopen path :: EvDlclose m ::
        events (scan_all P W later ;; dispatch P W req) st.
Proof.
  intros HL Ho Hs.
  pose proof (module_scan_unused P W path m st HL Ho Hs) as Hrun.
  split; [exact Hrun |].
  intros later req. unfold events at 1, bind at 1. rewrite Hrun.
  unfold events.
  destruct ((scan_all P W later ;; dispatch P W req) st). reflexivity.
Qed.

Lemma C4_module_without_hooks_is_unloaded_witness :
  module_scan Demo.P Demo.W "/mods/a.so" boot =
    ([EvDlopen "/mods/a.so"; EvDlclose 16], Done tt boot).
Proof.
  apply (C4_module_without_hooks_is_unloaded Demo.P Demo.W "/mods/a.so" 16);
    reflexivity.
Defined.

(** C5. In every process state, every call a dispatch operation makes
    with a snapshot passes one whose [structure_version] is the constant
    of its type: [AHRS_state_version], [gyro_sample_version] or
    [accel_sample_version]. *)
Theorem C5_snapshot_version_constant P W req st :
  Forall (version_ok P) (events (dispatch P W req) st).
Proof.
  destruct (dispatch_run P W req st) as (t & n & Hd & _ & Hv).
  unfold events. rewrite Hd. exact Hv.
Qed.

(** C6, as the design document words it, run on a source that reports
    an origin 5 cm high: the entry points are called with the origin
    flag set and altitude 13421772 * 2^-28 = 0.0499999970..., which is
    not 5/100, and not the float nearest to 5/100 either (that one is
    13421773 * 2^-28, what the float division 5/100 yields). *)
Lemma C6_altitude_of_5_cm :
  let ahrs :=
    Demo.source Float32.zero (Some {| alt := 5; lat := 0; lng := 0 |})
                (Demo.vec 0 0 0) in
  let snaps :=
    AHRS_snapshots
      (events (call_hook_AHRS_update Demo.P Demo.W ahrs) Demo.two_modules) in
  snaps <> [] /\
  Forall (fun snap =>
            origin_initialised (origin snap) = true /\
            origin_altitude (origin snap) = S754_finite false 13421772 (-28) /\
            ~ is_cm_over_100 (origin_altitude (origin snap)) 5 /\
            origin_altitude (origin snap) <>
              Float32.div (Float32.of_int 5) (Float32.of_int 100))
         snaps.
Proof.
  cbv zeta. split; [vm_compute; discriminate |].
  repeat constructor; try (vm_compute; discriminate).
  all: intros (q & Hq & Heq); vm_compute in Hq; injection Hq as <-;
    vm_compute in Heq; discriminate.
Qed.

(** C6, amended. In every AHRS snapshot passed to an entry point: if the
    source reports no origin, the origin flag is false and latitude,
    longitude and altitude are zero; if it reports one, the flag is
    true, latitude and longitude are the source's, and the altitude is
    the single-precision product of the centimetre count (converted to
    float) and the constant 0.01f, which for a 32-bit count is within a
    relative 2^-22 of the count divided by 100. *)
Theorem C6_origin_in_snapshot P W ahrs st snap :
  In snap (AHRS_snapshots (events (call_hook_AHRS_update P W ahrs) st)) ->
  match get_origin ahrs with
  | None =>
      origin_initialised (origin snap) = false /\
      origin_latitude (origin snap) = 0 /\
      origin_longitude (origin snap) = 0 /\
      origin_altitude (origin snap) = Float32.zero
  | Some loc =>
      origin_initialised (origin snap) = true /\
      origin_latitude (origin snap) = lat loc /\
      origin_longitude (origin snap) = lng loc /\
      origin_altitude (origin snap) =
        Float32.mul (Float32.of_int (alt loc)) Float32.lit_0_01f /\
      (-2 ^ 31 <= alt loc < 2 ^ 31 ->
       is_about_cm_over_100 (origin_altitude (origin snap)) (alt loc))
  end.
Proof.
  intros Hin. apply AHRS_snapshot_inv in Hin as [reads Hc].
  destruct (construct_AHRS_state_spec P W ahrs st)
    as (reads' & snap' & Hc' & _ & _ & _ & _ & Ho & _).
  rewrite Hc in Hc'. injection Hc' as _ <-.
  rewrite Ho. destruct (get_origin ahrs) as [loc |]; repeat split.
  cbn [origin_altitude]. apply Float32_facts.mul_0_01f_error.
Qed.

Lemma C6_origin_in_snapshot_witness :
  let ahrs :=
    Demo.source Float32.zero (Some {| alt := 250; lat := 7; lng := 9 |})
                (Demo.vec 0 0 0) in
  let snap :=
    hd AHRS_state_zero
       (AHRS_snapshots
          (events (call_hook_AHRS_update Demo.P Demo.W ahrs)
                  Demo.two_modules)) in
  origin_initialised (origin snap) = true /\
  origin_latitude (origin snap) = 7 /\
  origin_longitude (origin snap) = 9 /\
  origin_altitude (origin snap) =
    Float32.mul (Float32.of_int 250) Float32.lit_0_01f /\
  is_about_cm_over_100 (origin_altitude (origin snap)) 250.
Proof.
  intros ahrs snap.
  assert (Hin : In snap
                   (AHRS_snapshots
                      (events (call_hook_AHRS_update Demo.P Demo.W ahrs)
                              Demo.two_modules))).
  { vm_compute. left. reflexivity. }
  destruct (C6_origin_in_snapshot Demo.P Demo.W ahrs Demo.two_modules snap Hin)
    as (H1 & H2 & H3 & H4 & H5).
  repeat split; try assumption.
  apply H5. vm_compute. split; [discriminate | reflexivity].
Defined.

(** C7. [init] hands to [dlopen] exactly the directory entries whose
    name ends in ".so" (compared byte by byte, so case matters), in
    directory order; for a directory that holds "a.so", "b.txt" and
    "c.SO" in any order that is one load attempt, for "a.so" (given a
    build with libdl and memory for the paths and the registrations). *)
Theorem C7_init_loads_exactly_dot_so P W module_path entries st :
  HAVE_LIBDL P = true ->
  opendir W module_path = Some entries ->
  Forall (fun d => CString.nul_free d = true) entries ->
  (forall d, In d entries -> asprintf_ok W module_path d = true) ->
  (forall m i, new_hook_list_ok W m i = true) ->
  load_attempts (events (init P W module_path) st) =
    map (fun d => module_path ++ "/" ++ d)
        (filter (CString.ends_with ".so") entries) /\
  (Permutation entries ["a.so"; "b.txt"; "c.SO"] ->
   load_attempts (events (init P W module_path) st) =
     [module_path ++ "/a.so"]).
Proof.
  intros HL Hd Hn Hp Hm.
  assert (E : load_attempts (events (init P W module_path) st) =
              map (fun d => module_path ++ "/" ++ d)
                  (filter (CString.ends_with ".so") entries)).
  { unfold init. rewrite Hd.
    rewrite for_each_init_entry_load_attempts by assumption.
    f_equal. apply filter_ext_in. intros d Hin.
    apply CString_facts.passes_filter_ends_with.
    rewrite Forall_forall in Hn. now apply Hn. }
  split; [exact E |].
  intros Hperm. rewrite E.
  apply (Permutation_filter (CString.ends_with ".so")) in Hperm.
  apply Permutation_sym, Permutation_length_1_inv in Hperm.
  rewrite Hperm. reflexivity.
Qed.

Lemma C7_init_loads_exactly_dot_so_witness :
  load_attempts (events (init Demo.P Demo.W "/mods") boot) = ["/mods/a.so"].
Proof.
  refine (proj2 (C7_init_loads_exactly_dot_so Demo.P Demo.W "/mods"
                   ["a.so"; "b.txt"; "c.SO"] boot _ _ _ _ _) _).
  - reflexivity.
  - reflexivity.
  - repeat constructor.
  - intros d [<- | [<- | [<- | []]]]; reflexivity.
  - reflexivity.
  - apply Permutation_refl.
Defined.

(** C8. In every AHRS snapshot passed to an entry point the euler
    angles are the roll, pitch and yaw the source holds, and the
    quaternion is the one derived from the source's rotation matrix;
    the eulers are not a function of that quaternion: whatever
    conversion from quaternion to euler angles one takes, some source
    state yields a snapshot whose eulers differ from the conversion of
    its own quaternion. *)
Theorem C8_eulers_are_the_cached_angles P W st :
  hooks st HOOK_AHRS_UPDATE <> [] ->
  (forall ahrs snap,
     In snap (AHRS_snapshots (events (call_hook_AHRS_update P W ahrs) st)) ->
     eulers snap = [roll ahrs; pitch ahrs; yaw ahrs] /\
     quat snap =
       (let q := from_rotation_matrix P (get_rotation_body_to_ned ahrs) in
        [q1 q; q2 q; q3 q; q4 q])) /\
  (forall to_euler : list float -> list float,
     exists ahrs snap,
       In snap (AHRS_snapshots (events (call_hook_AHRS_update P W ahrs) st)) /\
       eulers snap <> to_euler (quat snap)).
Proof.
  intros NE. split.
  - intros ahrs snap Hin. apply AHRS_snapshot_inv in Hin as [reads Hc].
    destruct (construct_AHRS_state_spec P W ahrs st)
      as (reads' & snap' & Hc' & _ & _ & Hq & He & _).
    rewrite Hc in Hc'. injection Hc' as _ <-. now split.
  - intros to_euler.
    set (src := fun r => Demo.source r None (Demo.vec 0 0 0)).
    assert (Hsnap : forall r, exists snap,
               In snap (AHRS_snapshots
                          (events (call_hook_AHRS_update P W (src r)) st)) /\
               eulers snap = [r; Float32.zero; Float32.zero] /\
               quat snap =
                 (let q := from_rotation_matrix P Demo.identity_matrix in
                  [q1 q; q2 q; q3 q; q4 q])).
    { intros r.
      destruct (call_hook_AHRS_update_run P W (src r) st NE)
        as (reads & snap & Hc & Hr).
      destruct (construct_AHRS_state_spec P W (src r) st)
        as (reads' & snap' & Hc' & Hreads & _ & Hq & He & _).
      rewrite Hc in Hc'. injection Hc' as <- <-.
      exists snap. split; [| now split].
      unfold events. rewrite Hr. simpl fst.
      rewrite AHRS_snapshots_app, (only_reads_snapshots _ Hreads),
        AHRS_snapshots_calls. simpl app.
      destruct (hooks st HOOK_AHRS_UPDATE); [congruence | now left]. }
    destruct (Hsnap Float32.zero) as (s0 & Hin0 & He0 & Hq0).
    destruct (Hsnap (Float32.of_int 1)) as (s1 & Hin1 & He1 & Hq1).
    destruct (list_eq_dec Float32.eq_dec (eulers s0) (to_euler (quat s0)))
      as [E | N].
    + exists (src (Float32.of_int 1)), s1. split; [exact Hin1 |].
      rewrite Hq1, <- Hq0, <- E, He0, He1. discriminate.
    + exists (src Float32.zero), s0. now split.
Qed.

Lemma C8_eulers_are_the_cached_angles_witness :
  exists ahrs snap,
    In snap (AHRS_snapshots
               (events (call_hook_AHRS_update Demo.P Demo.W ahrs)
                       Demo.two_modules)) /\
    eulers snap <> firstn 3 (quat snap).
Proof.
  refine (proj2 (C8_eulers_are_the_cached_angles Demo.P Demo.W
                   Demo.two_modules _) (firstn 3)).
  vm_compute. discriminate.
Defined.

(** C9. Each of the five dispatch operations returns and leaves the
    registry as it found it: the list of every hook is the same after
    the call as before. *)
Theorem C9_dispatch_keeps_registry P W req st :
  exists st',
    outcome (dispatch P W req) st = Done tt st' /\ hooks st' = hooks st.
Proof.
  destruct (dispatch_run P W req st) as (t & n & Hd & _).
  eexists. unfold outcome. rewrite Hd. split; reflexivity.
Qed.

(** C10. [init] has no way to report failure and needs none: when the
    directory cannot be opened it returns at once, with no event and the
    process (hence every hook list) as it was; an entry whose path
    cannot be built is passed over, the run being the same as on the
    directory without that entry; with memory for the registrations
    [init] returns; the only other way it can end is the process panic
    on a failed allocation of a registration; and past an entry whose
    path cannot be built discovery goes on: the run is the scan, one
    after the other and in directory order, of all the other entries
    that pass the filter and whose path can be built, before and after
    the failing one, each of them handed to [dlopen]. *)
Theorem C10_init_is_not_fallible P W module_path st :
  (opendir W module_path = None ->
   init P W module_path st = ([], Done tt st)) /\
  (forall before d_name after,
     opendir W module_path = Some (before ++ d_name :: after)%list ->
     asprintf_ok W module_path d_name = false ->
     init P W module_path st =
     init P (with_listing W module_path (before ++ after)%list)
          module_path st) /\
  ((forall m i, new_hook_list_ok W m i = true) ->
   exists st', outcome (init P W module_path) st = Done tt st') /\
  (forall msg,
     outcome (init P W module_path) st = Panic msg -> allocation_panic msg) /\
  (forall before d_name after,
     opendir W module_path = Some (before ++ d_name :: after)%list ->
     asprintf_ok W module_path d_name = false ->
     init P W module_path st =
       scan_all P W (kept W module_path (before ++ after)%list) st /\
     (HAVE_LIBDL P = true ->
      (forall m i, new_hook_list_ok W m i = true) ->
      load_attempts (events (init P W module_path) st) =
        kept W module_path (before ++ after)%list)).
Proof.
  split; [| split; [| split; [| split]]].
  - unfold init. intros ->. reflexivity.
  - unfold init. intros before d_name after -> Hfail. simpl.
    rewrite String.eqb_refl, for_each_init_entry_listing.
    now apply for_each_skip.
  - unfold init. intros Hm.
    destruct (opendir W module_path) as [entries |].
    + now apply for_each_init_entry_returns.
    + now exists st.
  - unfold init. intros msg.
    destruct (opendir W module_path) as [entries |].
    + apply for_each_init_entry_panic.
    + discriminate.
  - intros before d_name after Ho Hfail.
    assert (E : init P W module_path st =
                scan_all P W (kept W module_path (before ++ after)%list) st).
    { rewrite (init_scan_all P W module_path _ st Ho).
      now rewrite kept_skip by exact Hfail. }
    split; [exact E |].
    intros HL Hm. unfold events. rewrite E.
    now apply scan_all_load_attempts.
Qed.

Lemma C10_init_is_not_fallible_witness :
  init Demo.P Demo.W "/nowhere" boot = ([], Done tt boot) /\
  init Demo.P Demo.W "/flaky" boot =
    init Demo.P (with_listing Demo.W "/flaky" ["A.so"]) "/flaky" boot /\
  (exists st', outcome (init Demo.P Demo.W "/flaky") boot = Done tt st') /\
  init Demo.P Demo.W "/flaky" boot =
    scan_all Demo.P Demo.W ["/flaky/A.so"] boot /\
  load_attempts (events (init Demo.P Demo.W "/flaky") boot) =
    ["/flaky/A.so"].
Proof.
  destruct (C10_init_is_not_fallible Demo.P Demo.W "/nowhere" boot)
    as (Hclosed & _).
  destruct (C10_init_is_not_fallible Demo.P Demo.W "/flaky" boot)
    as (_ & Hskip & Hret & _ & Hgoes_on).
  destruct (Hgoes_on [] "x.so" ["A.so"] eq_refl eq_refl) as [Hscan Hload].
  split; [apply Hclosed; reflexivity |].
  split; [apply (Hskip [] "x.so" ["A.so"]); reflexivity |].
  split; [apply Hret; reflexivity |].
  split; [exact Hscan |].
  apply Hload; reflexivity.
Defined.

(** * Further properties of the code *)

(** ** The rest of the AHRS snapshot *)

(** The members of the snapshot the lemma [construct_AHRS_state_spec]
    leaves out, and how the block reads the source. *)
Lemma construct_AHRS_state_rest P W ahrs st :
  exists reads snap,
    construct_AHRS_state P W ahrs st = (reads, Done snap (tick st)) /\
    NoDup reads /\
    (initialised ahrs = false -> ~ In (EvRead A_healthy) reads) /\
    time_us snap = micros64_at W (clock_reads st) /\
    status snap = status_of ahrs /\
    position snap =
      match get_position ahrs with
      | Some loc =>
          {| position_available := true;
             position_latitude := lat loc;
             position_longitude := lng loc;
             position_altitude :=
               Float32.mul (Float32.of_int (alt loc)) Float32.lit_0_01f |}
      | None => position_zero
      end /\
    relative_position snap =
      match get_relative_position_NED ahrs with
      | Some pos => [vx pos; vy pos; vz pos]
      | None => zeros 3
      end.
Proof.
  destruct ahrs as [i h rot r p y o po rp g a].
  destruct i, h, o, po, rp; cbn;
    do 2 eexists; (split; [reflexivity |]);
    (split; [repeat constructor; simpl; intuition discriminate |]);
    (split; [try discriminate; intros _; simpl; intuition discriminate |]);
    repeat split.
Qed.

(** The snapshot and the reads behind an AHRS snapshot that was passed
    on, as one package. *)
Lemma AHRS_snapshot_origin P W ahrs st snap :
  In snap (AHRS_snapshots (events (call_hook_AHRS_update P W ahrs) st)) ->
  exists reads,
    construct_AHRS_state P W ahrs st = (reads, Done snap (tick st)) /\
    events (call_hook_AHRS_update P W ahrs) st =
      (reads ++ map (fun fn => EvAHRSUpdate fn snap)
                    (hooks st HOOK_AHRS_UPDATE))%list.
Proof.
  intros Hin. pose proof Hin as Hin'.
  apply AHRS_snapshot_inv in Hin' as [reads Hc].
  exists reads. split; [exact Hc |].
  destruct (hooks st HOOK_AHRS_UPDATE) as [| fn rest] eqn:E.
  - unfold events in Hin.
    rewrite call_hook_AHRS_update_empty in Hin by exact E. destruct Hin.
  - destruct (call_hook_AHRS_update_run P W ahrs st)
      as (reads' & snap' & Hc' & Hr); [rewrite E; discriminate |].
    rewrite Hc in Hc'. injection Hc' as <- <-.
    unfold events. rewrite Hr, E. reflexivity.
Qed.

Lemma setup_hooks_run W st :
  let now := micros64_at W (clock_reads st) in
  call_hook_setup_start W st =
    (map (fun fn => EvSetupStart fn now) (hooks st HOOK_SETUP_START),
     Done tt (tick st)) /\
  call_hook_setup_complete W st =
    (map (fun fn => EvSetupComplete fn now) (hooks st HOOK_SETUP_COMPLETE),
     Done tt (tick st)).
Proof.
  split.
  - unfold call_hook_setup_start, bind, micros64, get_hooks.
    cbn [tick hooks]. now rewrite for_each_emit.
  - unfold call_hook_setup_complete, bind, micros64, get_hooks.
    cbn [tick hooks]. now rewrite for_each_emit.
Qed.

Lemma call_hook_gyro_sample_run P W instance dt v st :
  hooks st HOOK_GYRO_SAMPLE <> [] ->
  call_hook_gyro_sample P W instance dt v st =
    (map (fun fn =>
            EvGyroSample fn
              {| gyro_structure_version := gyro_sample_version P;
                 gyro_time_us := micros64_at W (clock_reads st);
                 gyro_instance := instance;
                 gyro_delta_time := dt;
                 gyro := [vx v; vy v; vz v] |})
         (hooks st HOOK_GYRO_SAMPLE),
     Done tt (tick st)).
Proof.
  intros NE. unfold call_hook_gyro_sample, bind at 1, get_hooks at 1.
  destruct (hooks st HOOK_GYRO_SAMPLE) as [| fn rest] eqn:E; [congruence |].
  unfold bind, micros64, get_hooks. cbn [tick hooks].
  now rewrite for_each_emit, E.
Qed.

Lemma call_hook_accel_sample_run P W instance dt v st :
  hooks st HOOK_ACCEL_SAMPLE <> [] ->
  call_hook_accel_sample P W instance dt v st =
    (map (fun fn =>
            EvAccelSample fn
              {| accel_structure_version := accel_sample_version P;
                 accel_time_us := micros64_at W (clock_reads st);
                 accel_instance := instance;
                 accel_delta_time := dt;
                 accel := [vx v; vy v; vz v] |})
         (hooks st HOOK_ACCEL_SAMPLE),
     Done tt (tick st)).
Proof.
  intros NE. unfold call_hook_accel_sample, bind at 1, get_hooks at 1.
  destruct (hooks st HOOK_ACCEL_SAMPLE) as [| fn rest] eqn:E; [congruence |].
  unfold bind, micros64, get_hooks. cbn [tick hooks].
  now rewrite for_each_emit, E.
Qed.

Lemma sample_hooks_empty P W instance dt v st :
  (hooks st HOOK_GYRO_SAMPLE = [] ->
   call_hook_gyro_sample P W instance dt v st = ([], Done tt st)) /\
  (hooks st HOOK_ACCEL_SAMPLE = [] ->
   call_hook_accel_sample P W instance dt v st = ([], Done tt st)).
Proof.
  split; intros E.
  - unfold call_hook_gyro_sample, bind, get_hooks. now rewrite E.
  - unfold call_hook_accel_sample, bind, get_hooks. now rewrite E.
Qed.

Lemma call_hook_AHRS_update_shape P W ahrs st :
  hooks st HOOK_AHRS_UPDATE <> [] ->
  exists reads snap,
    call_hook_AHRS_update P W ahrs st =
      ((reads ++ map (fun fn => EvAHRSUpdate fn snap)
                     (hooks st HOOK_AHRS_UPDATE))%list,
       Done tt (tick st)) /\
    only_reads reads /\ NoDup reads /\
    time_us snap = micros64_at W (clock_reads st).
Proof.
  intros NE.
  destruct (call_hook_AHRS_update_run P W ahrs st NE)
    as (reads & snap & Hc & Hr).
  destruct (construct_AHRS_state_spec P W ahrs st)
    as (reads1 & snap1 & Hc1 & Hreads & _).
  destruct (construct_AHRS_state_rest P W ahrs st)
    as (reads2 & snap2 & Hc2 & Hnd & _ & Ht & _).
  rewrite Hc in Hc1, Hc2.
  injection Hc1 as <- <-. injection Hc2 as <- <-.
  exists reads, snap. auto.
Qed.

(** X1. The status of every AHRS snapshot passed to an entry point is
    Initialising when the source is not initialised, otherwise Healthy
    or Unhealthy after the source's health flag; and the health flag of
    a source that is not initialised is not read at all. *)
Theorem AHRS_status_from_flags P W ahrs st snap :
  In snap (AHRS_snapshots (events (call_hook_AHRS_update P W ahrs) st)) ->
  status snap = status_of ahrs /\
  (initialised ahrs = false ->
   ~ In (EvRead A_healthy) (events (call_hook_AHRS_update P W ahrs) st)).
Proof.
  intros Hin. apply AHRS_snapshot_origin in Hin as (reads & Hc & Hev).
  destruct (construct_AHRS_state_rest P W ahrs st)
    as (reads' & snap' & Hc' & _ & Hh & _ & Hs & _).
  rewrite Hc in Hc'. injection Hc' as <- <-.
  split; [exact Hs |].
  intros Hi. rewrite Hev. intros Hin. apply in_app_or in Hin as [Hin | Hin].
  - now apply Hh.
  - apply in_map_iff in Hin as (fn & Hfn & _). discriminate.
Qed.

Lemma AHRS_status_from_flags_witness :
  let ahrs := Demo.source Float32.zero None (Demo.vec 0 0 0) in
  let snap :=
    hd AHRS_state_zero
       (AHRS_snapshots
          (events (call_hook_AHRS_update Demo.P Demo.W ahrs)
                  Demo.two_modules)) in
  status snap = AHRS_STATUS_HEALTHY.
Proof.
  intros ahrs snap.
  refine (proj1 (AHRS_status_from_flags Demo.P Demo.W ahrs
                   Demo.two_modules snap _)).
  vm_compute. left. reflexivity.
Defined.

(** X2. The body-frame gyro rate of every AHRS snapshot passed to an
    entry point is the source's gyro vector, lane by lane. *)
Theorem AHRS_gyro_rate_lanes P W ahrs st snap :
  In snap (AHRS_snapshots (events (call_hook_AHRS_update P W ahrs) st)) ->
  forall i, (i < 3)%nat ->
    array_get (gyro_rate snap) i = Vector3f_at (get_gyro ahrs) i.
Proof.
  intros Hin. apply AHRS_snapshot_inv in Hin as [reads Hc].
  destruct (construct_AHRS_state_spec P W ahrs st)
    as (reads' & snap' & Hc' & _ & _ & _ & _ & _ & Hg & _).
  rewrite Hc in Hc'. injection Hc' as _ <-.
  rewrite Hg. intros [| [| [| i]]] Hi; try reflexivity. lia.
Qed.

Lemma AHRS_gyro_rate_lanes_witness :
  let ahrs :=
    {| initialised := true; healthy := false;
       get_rotation_body_to_ned := Demo.identity_matrix;
       roll := Float32.zero; pitch := Float32.zero; yaw := Float32.zero;
       get_origin := None; get_position := None;
       get_relative_position_NED := None;
       get_gyro := Demo.vec 4 5 6;
       get_accel_ef := Demo.vec 1 2 3 |} in
  let snap :=
    hd AHRS_state_zero
       (AHRS_snapshots
          (events (call_hook_AHRS_update Demo.P Demo.W ahrs)
                  Demo.two_modules)) in
  array_get (gyro_rate snap) 2 = Float32.of_int 6.
Proof.
  intros ahrs snap.
  refine (AHRS_gyro_rate_lanes Demo.P Demo.W ahrs Demo.two_modules snap
            _ 2%nat _).
  - vm_compute. left. reflexivity.
  - lia.
Defined.

(** X3. The position of every AHRS snapshot passed to an entry point
    depends on the source's position alone, not on its origin: without
    a position the flag is false and latitude, longitude and altitude
    are zero; with one the flag is true, latitude and longitude are
    copied, and the altitude is the single-precision product of the
    centimetre count and 0.01f, within a relative 2^-22 of the count
    divided by 100 for a 32-bit count. *)
Theorem AHRS_position_in_snapshot P W ahrs st snap :
  In snap (AHRS_snapshots (events (call_hook_AHRS_update P W ahrs) st)) ->
  match get_position ahrs with
  | None =>
      position_available (position snap) = false /\
      position_latitude (position snap) = 0 /\
      position_longitude (position snap) = 0 /\
      position_altitude (position snap) = Float32.zero
  | Some loc =>
      position_available (position snap) = true /\
      position_latitude (position snap) = lat loc /\
      position_longitude (position snap) = lng loc /\
      position_altitude (position snap) =
        Float32.mul (Float32.of_int (alt loc)) Float32.lit_0_01f /\
      (-2 ^ 31 <= alt loc < 2 ^ 31 ->
       is_about_cm_over_100 (position_altitude (position snap)) (alt loc))
  end.
Proof.
  intros Hin. apply AHRS_snapshot_inv in Hin as [reads Hc].
  destruct (construct_AHRS_state_rest P W ahrs st)
    as (reads' & snap' & Hc' & _ & _ & _ & _ & Hp & _).
  rewrite Hc in Hc'. injection Hc' as _ <-.
  rewrite Hp. destruct (get_position ahrs) as [loc |]; repeat split.
  cbn [position_altitude]. apply Float32_facts.mul_0_01f_error.
Qed.

Lemma AHRS_position_in_snapshot_witness :
  let ahrs :=
    {| initialised := true; healthy := true;
       get_rotation_body_to_ned := Demo.identity_matrix;
       roll := Float32.zero; pitch := Float32.zero; yaw := Float32.zero;
       get_origin := None;
       get_position := Some {| alt := -1200; lat := 3; lng := 4 |};
       get_relative_position_NED := None;
       get_gyro := Demo.vec 0 0 0;
       get_accel_ef := Demo.vec 0 0 0 |} in
  let snap :=
    hd AHRS_state_zero
       (AHRS_snapshots
          (events (call_hook_AHRS_update Demo.P Demo.W ahrs)
                  Demo.two_modules)) in
  position_available (position snap) = true /\
  origin_initialised (origin snap) = false /\
  is_about_cm_over_100 (position_altitude (position snap)) (-1200).
Proof.
  intros ahrs snap.
  assert (Hin : In snap
                   (AHRS_snapshots
                      (events (call_hook_AHRS_update Demo.P Demo.W ahrs)
                              Demo.two_modules))).
  { vm_compute. left. reflexivity. }
  destruct (AHRS_position_in_snapshot Demo.P Demo.W ahrs Demo.two_modules
              snap Hin) as (H1 & _ & _ & _ & H5).
  split; [exact H1 |]. split; [reflexivity |].
  apply H5. vm_compute. split; [discriminate | reflexivity].
Defined.



(** X5. An AHRS update with a non-empty list reads the clock once and
    every accessor of the source at most once, all before the first
    call, however many entry points are registered; it then calls them
    in list order, each with one and the same snapshot, whose time is
    the clock value read. *)
Theorem AHRS_update_builds_one_snapshot P W ahrs st :
  hooks st HOOK_AHRS_UPDATE <> [] ->
  exists reads snap,
    call_hook_AHRS_update P W ahrs st =
      ((reads ++ map (fun fn => EvAHRSUpdate fn snap)
                     (hooks st HOOK_AHRS_UPDATE))%list,
       Done tt (tick st)) /\
    only_reads reads /\ NoDup reads /\
    time_us snap = micros64_at W (clock_reads st).
Proof. exact (call_hook_AHRS_update_shape P W ahrs st). Qed.

Lemma AHRS_update_builds_one_snapshot_witness :
  exists reads snap,
    call_hook_AHRS_update Demo.P Demo.W
      (Demo.source Float32.zero None (Demo.vec 0 0 0)) Demo.two_modules =
      ((reads ++ [EvAHRSUpdate 51 snap; EvAHRSUpdate 35 snap])%list,
       Done tt (tick Demo.two_modules)) /\
    only_reads reads /\ NoDup reads /\ time_us snap = 1000.
Proof.
  apply (AHRS_update_builds_one_snapshot Demo.P Demo.W
           (Demo.source Float32.zero None (Demo.vec 0 0 0))
           Demo.two_modules).
  vm_compute. discriminate.
Defined.

(** ** The other dispatch operations *)

(** X6. The two setup dispatches read the clock exactly once, also when
    nothing is registered, and call every registered entry point of
    their hook once, in list order, all with that one timestamp. *)
Theorem setup_hooks_share_one_timestamp W st :
  let now := micros64_at W (clock_reads st) in
  call_hook_setup_start W st =
    (map (fun fn => EvSetupStart fn now) (hooks st HOOK_SETUP_START),
     Done tt (tick st)) /\
  call_hook_setup_complete W st =
    (map (fun fn => EvSetupComplete fn now) (hooks st HOOK_SETUP_COMPLETE),
     Done tt (tick st)).
Proof. exact (setup_hooks_run W st). Qed.

(** X7. A gyro-sample dispatch with a non-empty list reads the clock
    once and calls every registered entry point in list order with one
    snapshot: the version constant, the clock value, the instance and
    delta time it was given, and the vector lane by lane. *)
Theorem gyro_sample_snapshot P W instance dt v st :
  hooks st HOOK_GYRO_SAMPLE <> [] ->
  call_hook_gyro_sample P W instance dt v st =
    (map (fun fn =>
            EvGyroSample fn
              {| gyro_structure_version := gyro_sample_version P;
                 gyro_time_us := micros64_at W (clock_reads st);
                 gyro_instance := instance;
                 gyro_delta_time := dt;
                 gyro := [vx v; vy v; vz v] |})
         (hooks st HOOK_GYRO_SAMPLE),
     Done tt (tick st)).
Proof. exact (call_hook_gyro_sample_run P W instance dt v st). Qed.

Lemma gyro_sample_snapshot_witness :
  call_hook_gyro_sample Demo.P Demo.W 2 (Float32.of_int 1) (Demo.vec 4 5 6)
    Demo.two_modules =
    ([EvGyroSample 52
        {| gyro_structure_version := 1;
           gyro_time_us := 1000;
           gyro_instance := 2;
           gyro_delta_time := Float32.of_int 1;
           gyro := [Float32.of_int 4; Float32.of_int 5; Float32.of_int 6] |}],
     Done tt (tick Demo.two_modules)).
Proof.
  apply (gyro_sample_snapshot Demo.P Demo.W 2 (Float32.of_int 1)
           (Demo.vec 4 5 6) Demo.two_modules).
  vm_compute. discriminate.
Defined.

(** X8. An accel-sample dispatch with a non-empty list does the same
    with its own version constant; unlike the earth-frame acceleration
    of the AHRS snapshot, its three lanes are the three components of
    the vector it was given. *)
Theorem accel_sample_snapshot P W instance dt v st :
  hooks st HOOK_ACCEL_SAMPLE <> [] ->
  call_hook_accel_sample P W instance dt v st =
    (map (fun fn =>
            EvAccelSample fn
              {| accel_structure_version := accel_sample_version P;
                 accel_time_us := micros64_at W (clock_reads st);
                 accel_instance := instance;
                 accel_delta_time := dt;
                 accel := [vx v; vy v; vz v] |})
         (hooks st HOOK_ACCEL_SAMPLE),
     Done tt (tick st)).
Proof. exact (call_hook_accel_sample_run P W instance dt v st). Qed.

Lemma accel_sample_snapshot_witness :
  call_hook_accel_sample Demo.P Demo.W 0 (Float32.of_int 1) (Demo.vec 1 2 3)
    Demo.two_modules =
    ([EvAccelSample 53
        {| accel_structure_version := 2;
           accel_time_us := 1000;
           accel_instance := 0;
           accel_delta_time := Float32.of_int 1;
           accel := [Float32.of_int 1; Float32.of_int 2; Float32.of_int 3] |}],
     Done tt (tick Demo.two_modules)).
Proof.
  apply (accel_sample_snapshot Demo.P Demo.W 0 (Float32.of_int 1)
           (Demo.vec 1 2 3) Demo.two_modules).
  vm_compute. discriminate.
Defined.

(** X9. With an empty list for their hook, the gyro-sample and the
    accel-sample dispatch return at once: no call, no read of the clock,
    the process as it was. *)
Theorem sample_hooks_empty_list P W instance dt v st :
  (hooks st HOOK_GYRO_SAMPLE = [] ->
   call_hook_gyro_sample P W instance dt v st = ([], Done tt st)) /\
  (hooks st HOOK_ACCEL_SAMPLE = [] ->
   call_hook_accel_sample P W instance dt v st = ([], Done tt st)).
Proof. exact (sample_hooks_empty P W instance dt v st). Qed.

Lemma sample_hooks_empty_list_witness :
  call_hook_gyro_sample Demo.P Demo.W 0 Float32.zero (Demo.vec 1 2 3) boot =
    ([], Done tt boot) /\
  call_hook_accel_sample Demo.P Demo.W 0 Float32.zero (Demo.vec 1 2 3) boot =
    ([], Done tt boot).
Proof.
  destruct (sample_hooks_empty_list Demo.P Demo.W 0 Float32.zero
              (Demo.vec 1 2 3) boot) as [Hg Ha].
  split; [apply Hg | apply Ha]; reflexivity.
Defined.

(** What a dispatch emits: reads of the navigation source, then calls. *)
Lemma dispatch_shape P W req st :
  exists reads calls,
    events (dispatch P W req) st = (reads ++ calls)%list /\
    only_reads reads /\
    Forall (fun e => callee e <> None) calls.
Proof.
  assert (Hcalls : forall {X} (f : symbol -> X -> event) (x : X) l,
             (forall fn, callee (f fn x) = Some fn) ->
             Forall (fun e => callee e <> None) (map (fun fn => f fn x) l)).
  { intros X f x l H. induction l; simpl; constructor; auto.
    rewrite H. discriminate. }
  destruct req as [| | ahrs | inst dt v | inst dt v]; simpl.
  - exists [], (events (call_hook_setup_start W) st).
    split; [reflexivity |]. split; [constructor |].
    unfold events.
    rewrite (proj1 (setup_hooks_run W st)). simpl fst.
    apply (Hcalls _ EvSetupStart). reflexivity.
  - exists [], (events (call_hook_setup_complete W) st).
    split; [reflexivity |]. split; [constructor |].
    unfold events.
    rewrite (proj2 (setup_hooks_run W st)). simpl fst.
    apply (Hcalls _ EvSetupComplete). reflexivity.
  - destruct (hooks st HOOK_AHRS_UPDATE) as [| fn rest] eqn:E.
    + exists [], []. unfold events.
      rewrite call_hook_AHRS_update_empty by exact E.
      repeat split; constructor.
    + destruct (call_hook_AHRS_update_shape P W ahrs st)
        as (reads & snap & Hr & Hreads & _); [rewrite E; discriminate |].
      exists reads, (map (fun fn => EvAHRSUpdate fn snap)
                         (hooks st HOOK_AHRS_UPDATE)).
      unfold events. rewrite Hr. split; [reflexivity |].
      split; [exact Hreads |].
      apply (Hcalls _ EvAHRSUpdate). reflexivity.
  - exists [], (events (call_hook_gyro_sample P W inst dt v) st).
    split; [reflexivity |]. split; [constructor |]. unfold events.
    destruct (hooks st HOOK_GYRO_SAMPLE) as [| fn rest] eqn:E.
    + rewrite (proj1 (sample_hooks_empty P W inst dt v st) E).
      constructor.
    + rewrite call_hook_gyro_sample_run by (rewrite E; discriminate).
      simpl fst. apply (Hcalls _ EvGyroSample). reflexivity.
  - exists [], (events (call_hook_accel_sample P W inst dt v) st).
    split; [reflexivity |]. split; [constructor |]. unfold events.
    destruct (hooks st HOOK_ACCEL_SAMPLE) as [| fn rest] eqn:E.
    + rewrite (proj2 (sample_hooks_empty P W inst dt v st) E).
      constructor.
    + rewrite call_hook_accel_sample_run by (rewrite E; discriminate).
      simpl fst. apply (Hcalls _ EvAccelSample). reflexivity.
Qed.

(** X10. A dispatch calls exactly the entry points registered for its
    own hook, once per registration and in list order, whatever is
    registered for the other hooks; and it never loads, unloads or
    prints: discovery events do not occur in it. *)
Theorem dispatch_calls_its_own_list P W req st :
  invoked (events (dispatch P W req) st) = hooks st (hook_of req) /\
  Forall (fun e => is_discovery e = false) (events (dispatch P W req) st).
Proof.
  split.
  - destruct (dispatch_run P W req st) as (t & n & Hd & Hinv & _).
    unfold events. now rewrite Hd.
  - destruct (dispatch_shape P W req st) as (reads & calls & -> & Hr & Hc).
    apply Forall_app. split.
    + eapply Forall_impl; [| exact Hr]. now intros e [a ->].
    + eapply Forall_impl; [| exact Hc]. intros [] H; try reflexivity;
        now contradiction H.
Qed.

(** ** More on [module_scan] *)

Section More_scan_facts.

Variable P : platform.
Variable W : world.

(** The symbol loop returns exactly when every symbol it resolves gets
    its registration node. *)
Lemma scan_symbols_returns_iff m ids found st :
  (exists b st', outcome (scan_symbols W m ids found) st = Done b st') <->
  (forall i s, In i ids -> dlsym W m (hook_names i) = Some s ->
               new_hook_list_ok W m i = true).
Proof.
  revert found st. induction ids as [| i rest IH]; intros found st.
  - split; [intros _ i s [] | intros _; now exists found, st].
  - simpl. destruct (dlsym W m (hook_names i)) as [s |] eqn:Es.
    + destruct (new_hook_list_ok W m i) eqn:En.
      * unfold outcome, bind, prepend.
        match goal with
        | |- context [scan_symbols W m rest true ?s1] =>
            specialize (IH true s1)
        end.
        unfold outcome in IH.
        destruct (scan_symbols W m rest true _) as [t r]. simpl in *.
        rewrite IH. split.
        -- intros H j sj [<- | Hj] Hs; [exact En | now apply (H j sj)].
        -- intros H j sj Hj. apply H. now right.
      * split.
        -- intros (b & st' & H). discriminate.
        -- intros H. specialize (H i s (or_introl eq_refl) Es). congruence.
    + rewrite IH. split.
      * intros H j sj [<- | Hj] Hs; [congruence | now apply (H j sj)].
      * intros H j sj Hj. apply H. now right.
Qed.

Lemma in_all_hooks i : In i all_hooks.
Proof. destruct i; simpl; tauto. Qed.

(** The run of a scan of a module that loads, in terms of its symbol
    loop. *)
Lemma module_scan_loaded path m st :
  HAVE_LIBDL P = true ->
  dlopen W path = Some m ->
  module_scan P W path st =
    match outcome (scan_symbols W m all_hooks false) st with
    | Done found st' =>
        (EvDlopen path :: (if found then [] else [EvDlclose m]), Done tt st')
    | Panic msg => ([EvDlopen path], Panic msg)
    end.
Proof.
  intros HL Ho. unfold module_scan. rewrite HL, Ho.
  unfold bind at 1, emit at 1. unfold bind.
  pose proof (scan_symbols_silent W m all_hooks false st) as Hs.
  unfold events, outcome in *.
  destruct (scan_symbols W m all_hooks false st) as [t [b s2 | msg]];
    simpl in Hs; subst t; [| reflexivity].
  destruct b; reflexivity.
Qed.

(** What a scan that returns has done to the registry and the clock. *)
Lemma module_scan_front path st st' :
  outcome (module_scan P W path) st = Done tt st' ->
  (forall X, hooks st' X = (module_front P W path X ++ hooks st X)%list) /\
  clock_reads st' = clock_reads st.
Proof.
  unfold module_front. destruct (HAVE_LIBDL P) eqn:HL.
  - destruct (dlopen W path) as [m |] eqn:Ho.
    + unfold outcome at 1. rewrite (module_scan_loaded path m st HL Ho).
      destruct (outcome (scan_symbols W m all_hooks false) st)
        as [b s2 | msg] eqn:E; [| discriminate].
      simpl. intros [= <-].
      apply scan_symbols_done in E as (Hh & Hc & _).
      split; [| exact Hc].
      intros X. rewrite Hh, registered_all_hooks. reflexivity.
    + unfold module_scan. rewrite HL, Ho. unfold outcome, bind, emit.
      simpl. intros [= <-]. auto.
  - unfold module_scan. rewrite HL. unfold outcome, ret. simpl.
    intros [= <-]. auto.
Qed.

Lemma scan_all_front paths st st' :
  outcome (scan_all P W paths) st = Done tt st' ->
  (forall X, hooks st' X = (scan_front P W paths X ++ hooks st X)%list) /\
  clock_reads st' = clock_reads st.
Proof.
  revert st. induction paths as [| p paths IH]; intros st H.
  - unfold outcome in H. simpl in H. injection H as <-. auto.
  - unfold scan_all in H. simpl in H.
    apply bind_done in H as ([] & s1 & H1 & H2).
    apply module_scan_front in H1 as [Hh1 Hc1].
    apply IH in H2 as [Hh2 Hc2].
    split; [| congruence].
    intros X. simpl. now rewrite Hh2, Hh1, app_assoc.
Qed.

(** Every event of a scan is a discovery event, however the scan ends. *)
Lemma module_scan_only_discovers path st :
  Forall (fun e => is_discovery e = true) (events (module_scan P W path) st).
Proof.
  destruct (HAVE_LIBDL P) eqn:HL.
  - destruct (dlopen W path) as [m |] eqn:Ho.
    + unfold events. rewrite (module_scan_loaded path m st HL Ho).
      destruct (outcome (scan_symbols W m all_hooks false) st) as [[] s2 | msg];
        repeat constructor.
    + unfold module_scan. rewrite HL, Ho. repeat constructor.
  - unfold module_scan. rewrite HL. constructor.
Qed.

Lemma scan_all_only_discovers paths st :
  Forall (fun e => is_discovery e = true) (events (scan_all P W paths) st).
Proof.
  revert st. induction paths as [| p paths IH]; intros st; [constructor |].
  unfold scan_all. simpl for_each.
  pose proof (module_scan_only_discovers p st) as H1.
  destruct (outcome (module_scan P W p) st) as [[] s1 | msg] eqn:E.
  - rewrite (proj1 (bind_events_done _ _ _ _ _ E)).
    apply Forall_app. split; [exact H1 | apply IH].
  - now rewrite (proj1 (bind_events_panic _ _ _ _ E)).
Qed.

Lemma filter_none {A} (f : A -> bool) l :
  (forall x, In x l -> f x = false) -> filter f l = [].
Proof.
  induction l as [| x l IH]; intros H; [reflexivity |].
  simpl. rewrite (H x) by now left. apply IH. intros y Hy. apply H. now right.
Qed.

End More_scan_facts.



(** X12. A module in which at least one of the five names resolves is
    kept loaded: a scan of it that returns emits the load and nothing
    else (no unload), and it changes the registry in exactly the lists
    whose name resolved, each by one new head; the other lists are as
    before. *)
Theorem module_with_hooks_is_kept P W path m X0 s0 st st' :
  HAVE_LIBDL P = true ->
  dlopen W path = Some m ->
  dlsym W m (hook_names X0) = Some s0 ->
  outcome (module_scan P W path) st = Done tt st' ->
  events (module_scan P W path) st = [EvDlopen path] /\
  forall X,
    hooks st' X =
    match dlsym W m (hook_names X) with
    | Some s => s :: hooks st X
    | None => hooks st X
    end.
Proof.
  intros HL Ho Hs0. unfold outcome at 1, events.
  rewrite (module_scan_loaded P W path m st HL Ho).
  destruct (outcome (scan_symbols W m all_hooks false) st)
    as [b s2 | msg] eqn:E; [| discriminate].
  simpl. intros [= <-].
  apply scan_symbols_done in E as (Hh & _ & _ & Hb).
  assert (b = true) as ->.
  { apply (Hb X0). rewrite registered_all_hooks, Hs0. discriminate. }
  split; [reflexivity |].
  intros X. rewrite Hh, registered_all_hooks.
  now destruct (dlsym W m (hook_names X)).
Qed.

Lemma module_with_hooks_is_kept_witness :
  exists st',
    outcome (module_scan Demo.P Demo.W "/two/A.so") boot = Done tt st' /\
    events (module_scan Demo.P Demo.W "/two/A.so") boot
      = [EvDlopen "/two/A.so"] /\
    hooks st' HOOK_SETUP_START = [33] /\
    hooks st' HOOK_AHRS_UPDATE = [35] /\
    hooks st' HOOK_GYRO_SAMPLE = [].
Proof.
  eexists. split; [reflexivity |].
  destruct (module_with_hooks_is_kept Demo.P Demo.W "/two/A.so" 32
              HOOK_SETUP_START 33 boot _ eq_refl eq_refl eq_refl eq_refl)
    as [He Hh].
  split; [exact He |].
  split; [exact (Hh HOOK_SETUP_START) |].
  split; [exact (Hh HOOK_AHRS_UPDATE) | exact (Hh HOOK_GYRO_SAMPLE)].
Defined.

(** X13. A scan of a module that loads returns exactly when every name
    that resolves gets its registration node; otherwise it ends in the
    process panic, and in that case the module has been loaded and not
    unloaded. *)
Theorem module_scan_returns_iff_allocated P W path m st :
  HAVE_LIBDL P = true ->
  dlopen W path = Some m ->
  ((exists st', outcome (module_scan P W path) st = Done tt st') <->
   (forall i s, dlsym W m (hook_names i) = Some s ->
                new_hook_list_ok W m i = true)) /\
  (forall msg,
     outcome (module_scan P W path) st = Panic msg ->
     allocation_panic msg /\
     events (module_scan P W path) st = [EvDlopen path]).
Proof.
  intros HL Ho. unfold outcome at 1 2, events.
  rewrite (module_scan_loaded P W path m st HL Ho).
  pose proof (scan_symbols_returns_iff W m all_hooks false st) as Hiff.
  pose proof (scan_symbols_panic W m all_hooks false st) as Hpanic.
  destruct (outcome (scan_symbols W m all_hooks false) st)
    as [b s2 | msg0]; simpl.
  - split; [| discriminate].
    split; [| intros _; now exists s2].
    intros _ i s. apply (proj1 Hiff); [now exists b, s2 | apply in_all_hooks].
  - split.
    + split; [intros [st' H]; discriminate |].
      intros H. destruct (proj2 Hiff) as (b & st' & Hd); [| discriminate].
      intros i s _. apply H.
    + intros msg [= <-]. split; [now apply Hpanic | reflexivity].
Qed.

Lemma module_scan_returns_iff_allocated_witness :
  ~ (exists st', outcome (module_scan Demo.P low_memory "/two/B.so") boot
                 = Done tt st') /\
  (exists st', outcome (module_scan Demo.P low_memory "/two/A.so") boot
               = Done tt st').
Proof.
  split.
  - intros H.
    pose proof (proj1 (proj1 (module_scan_returns_iff_allocated Demo.P
                                low_memory "/two/B.so" 48 boot
                                eq_refl eq_refl)) H
                  HOOK_AHRS_UPDATE 51 eq_refl) as H'.
    discriminate H'.
  - apply (proj2 (proj1 (module_scan_returns_iff_allocated Demo.P
                           low_memory "/two/A.so" 32 boot
                           eq_refl eq_refl))).
    intros i s _. reflexivity.
Defined.

(** X14. In a build without libdl nothing is ever loaded: [module_scan]
    does nothing, and [init] on any directory, whatever it holds,
    returns with no event and the process as it was. *)
Theorem without_libdl_nothing_is_loaded P W :
  HAVE_LIBDL P = false ->
  (forall path st, module_scan P W path st = ([], Done tt st)) /\
  (forall module_path st, init P W module_path st = ([], Done tt st)).
Proof.
  intros HL.
  assert (Hscan : forall path st, module_scan P W path st = ([], Done tt st)).
  { intros path st. unfold module_scan. now rewrite HL. }
  split; [exact Hscan |].
  intros module_path st.
  destruct (opendir W module_path) as [entries |] eqn:Ho.
  - rewrite (init_scan_all P W module_path entries st Ho).
    unfold scan_all. induction (kept W module_path entries) as [| p l IH];
      [reflexivity |].
    simpl. unfold bind. now rewrite Hscan, IH.
  - unfold init. now rewrite Ho.
Qed.

Lemma without_libdl_nothing_is_loaded_witness :
  init no_libdl Demo.W "/two" boot = ([], Done tt boot).
Proof.
  apply (without_libdl_nothing_is_loaded no_libdl Demo.W). reflexivity.
Defined.

(** X15. [init] on a directory that opens behaves exactly as scanning,
    one after the other and in directory order, the paths
    [module_path/name] of the entries that pass the suffix filter and
    whose path could be built: same events, same outcome. *)
Theorem init_scans_kept_entries P W module_path entries st :
  opendir W module_path = Some entries ->
  init P W module_path st = scan_all P W (kept W module_path entries) st.
Proof. apply init_scan_all. Qed.

Lemma init_scans_kept_entries_witness :
  init Demo.P Demo.W "/flaky" boot =
  scan_all Demo.P Demo.W ["/flaky/A.so"] boot.
Proof.
  apply (init_scans_kept_entries Demo.P Demo.W "/flaky" ["x.so"; "A.so"]).
  reflexivity.
Defined.

(** What a run of [init] that returns has done to the registry. *)
Lemma init_front P W module_path st st' :
  outcome (init P W module_path) st = Done tt st' ->
  (forall X,
     hooks st' X = (discovered P W module_path X ++ hooks st X)%list) /\
  clock_reads st' = clock_reads st.
Proof.
  unfold discovered.
  destruct (opendir W module_path) as [entries |] eqn:Ho.
  - unfold outcome.
    rewrite (init_scan_all P W module_path entries st Ho).
    apply scan_all_front.
  - unfold init. rewrite Ho. unfold outcome, ret. simpl.
    intros [= <-]. auto.
Qed.

(** X16. [init] only ever puts registrations in front: after a run that
    returns, every hook list is the symbols discovered in the directory
    (those of the module scanned last first) followed by the list as it
    was before, unchanged and in the same order; what is put in front
    does not depend on the registry; the clock is not read. *)
Theorem init_prepends_discovered P W module_path st st' :
  outcome (init P W module_path) st = Done tt st' ->
  (forall X,
     hooks st' X = (discovered P W module_path X ++ hooks st X)%list) /\
  clock_reads st' = clock_reads st.
Proof. apply init_front. Qed.

Lemma init_prepends_discovered_witness :
  hooks Demo.two_modules HOOK_AHRS_UPDATE =
    (discovered Demo.P Demo.W "/two" HOOK_AHRS_UPDATE
     ++ hooks boot HOOK_AHRS_UPDATE)%list /\
  discovered Demo.P Demo.W "/two" HOOK_AHRS_UPDATE = [51; 35].
Proof.
  split; [| reflexivity].
  refine (proj1 (init_prepends_discovered Demo.P Demo.W "/two" boot
                   Demo.two_modules _) HOOK_AHRS_UPDATE).
  reflexivity.
Defined.

(** X17. Nothing guards against a second discovery: when [init] runs
    twice on the same directory, every discovered entry point is
    registered twice, and every later dispatch calls it twice. *)
Theorem init_twice_registers_twice P W module_path st st' :
  outcome (init P W module_path ;; init P W module_path) st = Done tt st' ->
  forall req,
    invoked (events (dispatch P W req) st') =
    (discovered P W module_path (hook_of req)
     ++ discovered P W module_path (hook_of req)
     ++ hooks st (hook_of req))%list.
Proof.
  intros H req.
  apply bind_done in H as ([] & s1 & H1 & H2).
  apply init_front in H1 as [Hh1 _]. apply init_front in H2 as [Hh2 _].
  destruct (dispatch_run P W req st') as (t & n & Hd & Hinv & _).
  unfold events. rewrite Hd. simpl fst. now rewrite Hinv, Hh2, Hh1.
Qed.

Lemma init_twice_registers_twice_witness :
  exists st',
    outcome (init Demo.P Demo.W "/two" ;; init Demo.P Demo.W "/two") boot
      = Done tt st' /\
    invoked (events (dispatch Demo.P Demo.W SetupStart) st') = [33; 33].
Proof.
  eexists. split; [reflexivity |].
  exact (init_twice_registers_twice Demo.P Demo.W "/two" boot _ eq_refl
           SetupStart).
Defined.

(** X18. Discovery never runs module code and never looks at the
    navigation source: every event of [init], however it ends, is a
    load, a diagnostic or an unload. *)
Theorem init_only_discovers P W module_path st :
  Forall (fun e => is_discovery e = true) (events (init P W module_path) st) /\
  invoked (events (init P W module_path) st) = [].
Proof.
  assert (H : Forall (fun e => is_discovery e = true)
                     (events (init P W module_path) st)).
  { destruct (opendir W module_path) as [entries |] eqn:Ho.
    - unfold events. rewrite (init_scan_all P W module_path entries st Ho).
      apply scan_all_only_discovers.
    - unfold init. rewrite Ho. constructor. }
  split; [exact H |].
  induction H as [| e t He _ IH]; [reflexivity |].
  simpl. rewrite IH. now destruct e.
Qed.

(** X19. When no entry of the directory passes the suffix filter (a name
    without a dot, or with another last extension), [init] loads
    nothing and leaves the process as it was; started from boot, every
    dispatch after it calls nothing. *)
Theorem init_without_matching_entries P W module_path entries :
  opendir W module_path = Some entries ->
  (forall d, In d entries -> passes_filter d = false) ->
  (forall st, init P W module_path st = ([], Done tt st)) /\
  (forall req,
     invoked (events (init P W module_path ;; dispatch P W req) boot) = []).
Proof.
  intros Ho Hf.
  assert (Hinit : forall st, init P W module_path st = ([], Done tt st)).
  { intros st. rewrite (init_scan_all P W module_path entries st Ho).
    unfold kept. rewrite filter_none; [reflexivity |].
    intros d Hd. now rewrite (Hf d Hd). }
  split; [exact Hinit |].
  intros req. unfold events, bind. rewrite Hinit.
  destruct (dispatch_run P W req boot) as (t & n & Hd & Hinv & _).
  rewrite Hd. simpl. rewrite Hinv. reflexivity.
Qed.

Lemma init_without_matching_entries_witness :
  init Demo.P (with_listing Demo.W "/docs" ["README"; "b.txt"; "c.SO"])
       "/docs" boot = ([], Done tt boot).
Proof.
  refine (proj1 (init_without_matching_entries Demo.P
                   (with_listing Demo.W "/docs" ["README"; "b.txt"; "c.SO"])
                   "/docs" ["README"; "b.txt"; "c.SO"] _ _) boot).
  - reflexivity.
  - intros d [<- | [<- | [<- | []]]]; reflexivity.
Defined.

Lemma scan_front_flat_map P W paths X :
  scan_front P W paths X =
  flat_map (fun p => module_front P W p X) (rev paths).
Proof.
  induction paths as [| p paths IH]; [reflexivity |].
  simpl. rewrite flat_map_app, IH. simpl. now rewrite app_nil_r.
Qed.

(** X20. End to end: after [init] has run once from boot on a directory
    that opens, a dispatch calls exactly the entry points its hook's
    name resolves to in the modules of the kept entries, walking the
    directory listing backwards (the entry read last is called first),
    with at most one entry point per module. *)
Theorem discovery_then_dispatch P W module_path entries st' req :
  opendir W module_path = Some entries ->
  outcome (init P W module_path) boot = Done tt st' ->
  invoked (events (dispatch P W req) st') =
    flat_map (fun p => module_front P W p (hook_of req))
             (rev (kept W module_path entries)) /\
  (forall p, (List.length (module_front P W p (hook_of req)) <= 1)%nat).
Proof.
  intros Ho H. split.
  - apply init_front in H as [Hh _].
    destruct (dispatch_run P W req st') as (t & n & Hd & Hinv & _).
    unfold events. rewrite Hd. simpl fst.
    rewrite Hinv, Hh. unfold discovered. rewrite Ho.
    simpl. now rewrite app_nil_r, scan_front_flat_map.
  - intros p. unfold module_front, found_for.
    destruct (HAVE_LIBDL P); [| simpl; lia].
    destruct (dlopen W p) as [m |]; [| simpl; lia].
    destruct (dlsym W m (hook_names (hook_of req))); simpl; lia.
Qed.

Lemma discovery_then_dispatch_witness :
  invoked (events (dispatch Demo.P Demo.W
                     (GyroSample 0 Float32.zero (Demo.vec 1 2 3)))
                  Demo.two_modules) =
  flat_map (fun p => module_front Demo.P Demo.W p HOOK_GYRO_SAMPLE)
           ["/two/B.so"; "/two/A.so"].
Proof.
  exact (proj1 (discovery_then_dispatch Demo.P Demo.W "/two"
                  ["A.so"; "B.so"] Demo.two_modules
                  (GyroSample 0 Float32.zero (Demo.vec 1 2 3))
                  eq_refl eq_refl)).
Defined.
